(** * Handwriting service: segmentation, validation, layout and drawing

    Shallow embedding of [src/backend/app/services/handwriting.py].
    Python strings are lists of characters ([list ascii]); float fields are
    rationals [Q]; the numpy stroke arrays are lists of [(x, y, eos)] rows. *)

From Stdlib Require Import Ascii String Bool Arith Lia ZArith QArith Sorted List.
Import ListNotations.

Local Open Scope list_scope.

(** A Python [str], as its sequence of characters. *)
Definition pystr := list ascii.

(** One row of a stroke array: [x, y, eos] (offsets or coordinates). *)
Definition row := (Q * Q * Q)%type.

(** [class TextSegment] *)
Record TextSegment := mkTextSegment {
  text : pystr;
  style_id : Z;
  bias : Q;
  stroke_color : pystr;
  stroke_width : Q;
  scale : Q;
  strokes : option (list row)   (* None until sampled *)
}.

(** [TextSegment.__init__] with its keyword defaults spelled out by callers. *)
Definition TextSegment_init (t : pystr) (style : Z) (b : Q) (color : pystr)
  (width : Q) (sc : Q) : TextSegment :=
  {| text := t; style_id := style; bias := b; stroke_color := color;
     stroke_width := width; scale := sc; strokes := None |}.

(** The segment object after [segment.strokes = st]. *)
Definition with_strokes (s : TextSegment) (st : list row) : TextSegment :=
  {| text := text s; style_id := style_id s; bias := bias s;
     stroke_color := stroke_color s; stroke_width := stroke_width s;
     scale := scale s; strokes := Some st |}.

(** [class LayoutConfig] *)
Record LayoutConfig := mkLayoutConfig {
  line_spacing : Q;
  word_spacing : Q;
  char_spacing : Q;
  alignment : pystr;
  max_width : option Q
}.

(** ** String helpers (Python built-ins) *)

Definition is_newline (c : ascii) : bool := Ascii.eqb c "010"%char.

(** [str.isspace] restricted to ASCII: tab, LF, VT, FF, CR, the four
    separator controls 0x1c-0x1f, and space. *)
Definition isspace (c : ascii) : bool :=
  let n := nat_of_ascii c in
  ((9 <=? n) && (n <=? 13)) || ((28 <=? n) && (n <=? 32)).

(** [s.split(sep)] for a one-character separator: every separator cuts,
    empty pieces are kept ("" gives [""]). *)
Fixpoint split_sep_aux (p : ascii -> bool) (s cur : pystr) : list pystr :=
  match s with
  | [] => [cur]
  | c :: r => if p c then cur :: split_sep_aux p r []
              else split_sep_aux p r (cur ++ [c])
  end.

Definition split_sep (p : ascii -> bool) (s : pystr) : list pystr :=
  split_sep_aux p s [].

(** [text.split("\n")] *)
Definition split_lines (s : pystr) : list pystr := split_sep is_newline s.

(** [s.split()] with no argument (CPython's whitespace scan): skip runs of
    whitespace, emit each maximal run of other characters. *)
Fixpoint split_ws_aux (s cur : pystr) : list pystr :=
  match s with
  | [] => match cur with [] => [] | _ => [cur] end
  | c :: r =>
      if isspace c then
        match cur with
        | [] => split_ws_aux r []
        | _ => cur :: split_ws_aux r []
        end
      else split_ws_aux r (cur ++ [c])
  end.

Definition split_ws (s : pystr) : list pystr := split_ws_aux s [].

(** [s1 + sep + s2 + ...], i.e. [sep.join(l)]. *)
Fixpoint join (sep : pystr) (l : list pystr) : pystr :=
  match l with
  | [] => []
  | [x] => x
  | x :: xs => x ++ sep ++ join sep xs
  end.

(** ** [Hand.process_text] *)

Section Alphabet.

(** [drawing.alphabet] (app/utils/drawing.py): the fixed supported set. *)
Variable alphabet : list ascii.

Definition in_alphabet (c : ascii) : bool := existsb (Ascii.eqb c) alphabet.

Definition process_line (segmentation : pystr) (default_style : Z)
  (default_bias : Q) (default_color : pystr) (default_width default_scale : Q)
  (line : pystr) : list TextSegment :=
  let mk t := TextSegment_init t default_style default_bias default_color
                default_width default_scale in
  if list_eq_dec ascii_dec segmentation (list_ascii_of_string "line") then
    match line with [] => [] | _ => [mk line] end
  else if list_eq_dec ascii_dec segmentation (list_ascii_of_string "word") then
    map mk (split_ws line)
  else if list_eq_dec ascii_dec segmentation (list_ascii_of_string "character") then
    map (fun c => mk [c]) (filter in_alphabet line)
  else [].

Definition process_text (t : pystr) (segmentation : pystr) (default_style : Z)
  (default_bias : Q) (default_color : pystr) (default_width default_scale : Q)
  : list (list TextSegment) :=
  map (process_line segmentation default_style default_bias default_color
         default_width default_scale) (split_lines t).

End Alphabet.

(** ** [Hand.write]: the backward-compatible entry point.
    [write] below is the [segments_by_line] value that [Hand.write] builds
    and hands to [write_segments]; an optional per-line list is [None] when
    the caller passes [None]. *)

(** [xs[i] if xs and i < len(xs) else d] *)
Definition pick {A : Type} (xs : option (list A)) (i : nat) (d : A) : A :=
  match xs with
  | Some ((_ :: _) as l) => if i <? length l then nth i l d else d
  | _ => d
  end.

Definition write (lines : list pystr) (biases : option (list Q))
  (styles : option (list Z)) (stroke_colors : option (list pystr))
  (stroke_widths : option (list Q)) (scales : option (list Q))
  : list (list TextSegment) :=
  map (fun '(i, line) =>
         let style := pick styles i 0%Z in
         let b := pick biases i (1 # 2) in
         let color := pick stroke_colors i (list_ascii_of_string "black") in
         let width := pick stroke_widths i 2 in
         let scale_factor := pick scales i 1 in
         [TextSegment_init line style b color width scale_factor])
      (combine (seq 0 (length lines)) lines).

(** ** [Hand._validate_segments] *)

(** The two [ValueError]s raised by the validator, with what their messages
    cite. *)
Inductive ValueError :=
| TooLong (line_num segment_num : nat) (len : nat)
| InvalidChar (c : ascii) (line_num segment_num : nat).

Inductive outcome (A : Type) :=
| Ok (a : A)
| Raise (e : ValueError).
Arguments Ok {A} a.
Arguments Raise {A} e.

Section Validate.

Variable alphabet : list ascii.

Definition validate_segment (line_num segment_num : nat) (segment : TextSegment)
  : outcome unit :=
  if 75 <? length (text segment) then
    Raise (TooLong line_num segment_num (length (text segment)))
  else
    match find (fun c => negb (in_alphabet alphabet c)) (text segment) with
    | Some c => Raise (InvalidChar c line_num segment_num)
    | None => Ok tt
    end.

Fixpoint validate_line (line_num segment_num : nat) (line_segments : list TextSegment)
  : outcome unit :=
  match line_segments with
  | [] => Ok tt
  | s :: rest =>
      match validate_segment line_num segment_num s with
      | Ok _ => validate_line line_num (S segment_num) rest
      | Raise e => Raise e
      end
  end.

Fixpoint validate_lines (line_num : nat) (segments_by_line : list (list TextSegment))
  : outcome unit :=
  match segments_by_line with
  | [] => Ok tt
  | l :: rest =>
      match validate_line line_num 0 l with
      | Ok _ => validate_lines (S line_num) rest
      | Raise e => Raise e
      end
  end.

Definition validate_segments (segments_by_line : list (list TextSegment)) : outcome unit :=
  validate_lines 0 segments_by_line.

End Validate.

(** ** [Hand._calculate_segment_metrics] *)

(** The per-segment dictionary [{natural_width, x_position, width}]. *)
Record Metrics := mkMetrics {
  natural_width : Q;
  x_position : Q;
  width : Q
}.

Definition Q_of_nat (n : nat) : Q := inject_Z (Z.of_nat n).

(** First loop: estimate widths and accumulate [total_natural_width]. *)
Fixpoint estimate_loop (segs : list TextSegment) (i n : nat) (space_width total : Q)
  : list Metrics * Q :=
  match segs with
  | [] => ([], total)
  | segment :: rest =>
      let est_width := Q_of_nat (length (text segment)) * 10 * scale segment in
      let total1 := total + est_width in
      let total2 := if i <? n - 1 then total1 + space_width else total1 in
      let '(ms, t) := estimate_loop rest (S i) n space_width total2 in
      (mkMetrics est_width 0 est_width :: ms, t)
  end.

(** Second loop: assign [x_position] left to right. *)
Fixpoint position_loop (ms : list Metrics) (i n : nat) (space_width x : Q)
  : list Metrics :=
  match ms with
  | [] => []
  | m :: rest =>
      let m' := mkMetrics (natural_width m) x (width m) in
      let x1 := x + natural_width m in
      let x2 := if i <? n - 1 then x1 + space_width else x1 in
      m' :: position_loop rest (S i) n space_width x2
  end.

Definition is_str (s : pystr) (lit : string) : bool :=
  if list_eq_dec ascii_dec s (list_ascii_of_string lit) then true else false.

Definition start_x (layout_config : LayoutConfig) (total_width total_natural_width : Q) : Q :=
  if is_str (alignment layout_config) "center" then (total_width - total_natural_width) / 2
  else if is_str (alignment layout_config) "right" then total_width - total_natural_width
  else 0.

Definition calculate_segment_metrics (line_segments : list TextSegment)
  (total_width : Q) (layout_config : LayoutConfig) : list Metrics :=
  let space_width := 10 * word_spacing layout_config in
  let '(segment_metrics, total_natural_width) :=
    estimate_loop line_segments 0 (length line_segments) space_width 0 in
  position_loop segment_metrics 0 (length segment_metrics) space_width
    (start_x layout_config total_width total_natural_width).

(** ** [Hand._draw_segments] *)

(** [self.base_line_height] *)
Definition base_line_height : Q := 60.

(** One call [self._draw_segment(dwg, segment, x_position=..., y_position=...)]. *)
Record DrawCall := mkDrawCall {
  call_segment : TextSegment;
  call_x : Q;
  call_y : Q
}.

(** The SVG document: the view box (also the size of the white background
    rectangle) and, in order, the segments drawn into it. *)
Record Document := mkDocument {
  view_width : Q;
  view_height : Q;
  draw_calls : list DrawCall
}.

(** The inner loop over [zip(line_segments, segment_metrics)]. *)
Fixpoint draw_zip (segs : list TextSegment) (ms : list Metrics) (left_margin y_position : Q)
  : list DrawCall :=
  match segs, ms with
  | segment :: srest, metrics :: mrest =>
      let rest := draw_zip srest mrest left_margin y_position in
      match strokes segment, text segment with
      | None, _ | _, [] => rest
      | Some _, _ =>
          let x_pos := x_position metrics + left_margin in
          mkDrawCall segment x_pos y_position :: rest
      end
  | _, _ => []
  end.

Definition draw_line (usable_width left_margin : Q) (layout_config : LayoutConfig)
  (line_segments : list TextSegment) (y_position : Q) : list DrawCall :=
  let segment_metrics :=
    calculate_segment_metrics line_segments usable_width layout_config in
  draw_zip line_segments segment_metrics left_margin y_position.

(** The outer loop over [segments_by_line], threading [y_position]. *)
Fixpoint draw_lines (line_height usable_width left_margin : Q)
  (layout_config : LayoutConfig) (segments_by_line : list (list TextSegment))
  (y_position : Q) : list DrawCall :=
  match segments_by_line with
  | [] => []
  | [] :: rest =>
      draw_lines line_height usable_width left_margin layout_config rest
        (y_position + line_height)
  | line_segments :: rest =>
      draw_line usable_width left_margin layout_config line_segments y_position
      ++ draw_lines line_height usable_width left_margin layout_config rest
           (y_position + line_height)
  end.

Definition draw_segments (segments_by_line : list (list TextSegment))
  (layout_config : LayoutConfig) (page_dimensions : option (Q * Q))
  (margins : option (Q * Q * Q * Q)) : Document :=
  let line_height := base_line_height * line_spacing layout_config in
  let num_lines := length segments_by_line in
  let view_height := Q_of_nat (Nat.max 1 num_lines) * line_height in
  let view_width := 1000 in
  let '(view_width, view_height) :=
    match page_dimensions with
    | Some pd => pd
    | None => (view_width, view_height)
    end in
  let '(left_margin, top_margin, right_margin, bottom_margin) :=
    match margins with
    | Some m => m
    | None => (0, 0, 0, 0)
    end in
  let usable_width := view_width - left_margin - right_margin in
  let y_position := top_margin + line_height * (3 # 4) in
  mkDocument view_width view_height
    (draw_lines line_height usable_width left_margin layout_config
       segments_by_line y_position).

(** ** [Hand._sample_segments] and [Hand.write_segments] *)

(** Python exceptions reaching the caller of [write_segments]. *)
Inductive Exn :=
| ExnValue (e : ValueError)
| ExnIndex.                  (* [strokes[i]] out of range *)

Section Sampler.

Variable alphabet : list ascii.

(** [self._sample(texts, biases=..., styles=...)]: the TensorFlow model. *)
Variable sample : list pystr -> list Q -> list Z -> list (list row).

(** [segment.strokes = strokes[i]] over the flattened segments, in order. *)
Fixpoint attach_line (line_segments : list TextSegment) (sts : list (list row))
  : option (list TextSegment * list (list row)) :=
  match line_segments with
  | [] => Some ([], sts)
  | s :: rest =>
      match sts with
      | [] => None
      | st :: sts' =>
          match attach_line rest sts' with
          | Some (rest', sts'') =>
              Some (with_strokes s st :: rest', sts'')
          | None => None
          end
      end
  end.

Fixpoint attach (segments_by_line : list (list TextSegment)) (sts : list (list row))
  : option (list (list TextSegment)) :=
  match segments_by_line with
  | [] => Some []
  | l :: rest =>
      match attach_line l sts with
      | Some (l', sts') =>
          match attach rest sts' with
          | Some rest' => Some (l' :: rest')
          | None => None
          end
      | None => None
      end
  end.

(** Returns the batches handed to the sampler, and the segments afterwards. *)
Definition sample_segments (segments_by_line : list (list TextSegment))
  : list (list pystr) * (Exn + list (list TextSegment)) :=
  let all_segments := concat segments_by_line in
  match all_segments with
  | [] => ([], inr segments_by_line)
  | _ =>
      let texts := map text all_segments in
      let sts := sample texts (map bias all_segments) (map style_id all_segments) in
      ([texts],
       match attach segments_by_line sts with
       | Some s => inr s
       | None => inl ExnIndex
       end)
  end.

(** [Hand.write_segments]: validate, sample, draw.  The first component lists
    the sampler batches issued, in order. *)
Definition write_segments (segments_by_line : list (list TextSegment))
  (layout_config : option LayoutConfig) (page_dimensions : option (Q * Q))
  (margins : option (Q * Q * Q * Q)) : list (list pystr) * (Exn + Document) :=
  let layout_config :=
    match layout_config with
    | Some c => c
    | None => mkLayoutConfig (6 # 5) 1 1 (list_ascii_of_string "left") None
    end in
  match validate_segments alphabet segments_by_line with
  | Raise e => ([], inl (ExnValue e))
  | Ok _ =>
      let '(batches, r) := sample_segments segments_by_line in
      (batches,
       match r with
       | inl e => inl e
       | inr segs => inr (draw_segments segs layout_config page_dimensions margins)
       end)
  end.

End Sampler.

(** ** [Hand._draw_segment]: the geometry transform *)

(** Modelled from the spec: [drawing.offsets_to_coords] (app/utils/drawing.py,
    not among the sources). Running sum of [dx, dy]; the pen column is
    copied through unchanged. *)
Fixpoint offsets_to_coords_from (x y : Q) (offsets : list row) : list row :=
  match offsets with
  | [] => []
  | (dx, dy, eos) :: rest =>
      (x + dx, y + dy, eos) :: offsets_to_coords_from (x + dx) (y + dy) rest
  end.

Definition offsets_to_coords (offsets : list row) : list row :=
  offsets_to_coords_from 0 0 offsets.

(** Modelled from the spec: [drawing.denoise] (app/utils/drawing.py, not
    among the sources). "Drop degenerate/duplicate points": a point equal to
    its predecessor is dropped. Deterministic. *)
Fixpoint denoise_from (prev : Q * Q) (coords : list row) : list row :=
  match coords with
  | [] => []
  | (x, y, e) :: rest =>
      if Qeq_bool x (fst prev) && Qeq_bool y (snd prev) then denoise_from prev rest
      else (x, y, e) :: denoise_from (x, y) rest
  end.

Definition denoise_spec (coords : list row) : list row :=
  match coords with
  | [] => []
  | (x, y, e) :: rest => (x, y, e) :: denoise_from (x, y) rest
  end.

(** [numpy.min] of a column; [None] where numpy raises on an empty array. *)
Definition Qmin' (a b : Q) : Q := if Qle_bool a b then a else b.

Fixpoint list_min (l : list Q) : option Q :=
  match l with
  | [] => None
  | [a] => Some a
  | a :: rest =>
      match list_min rest with
      | Some m => Some (Qmin' a m)
      | None => Some a
      end
  end.

Definition xs_of (pts : list row) : list Q := map (fun '(x, _, _) => x) pts.
Definition ys_of (pts : list row) : list Q := map (fun '(_, y, _) => y) pts.
Definition xy_of (pts : list row) : list (Q * Q) := map (fun '(x, y, _) => (x, y)) pts.

(** [strokes[:, :2] = xy] *)
Definition set_xy (pts : list row) (xy : list (Q * Q)) : list row :=
  map (fun '((_, _, e), (x, y)) => (x, y, e)) (combine pts xy).

(** [offsets[:, :2] *= k] *)
Definition scale_rows (k : Q) (pts : list row) : list row :=
  map (fun '(x, y, e) => (x * k, y * k, e)) pts.

(** [strokes[:, 1] *= -1] *)
Definition flip_y (pts : list row) : list row :=
  map (fun '(x, y, e) => (x, y * -1, e)) pts.

(** [strokes[:, :2] += [dx, dy]] *)
Definition translate (dx dy : Q) (pts : list row) : list row :=
  map (fun '(x, y, e) => (x + dx, y + dy, e)) pts.

(** The SVG path: a leading move to the first point, then one command per
    point, a move ([true]) after a pen-up ([prev_eos == 1.0]) and a line-to
    ([false]) otherwise. *)
Fixpoint path_cmds (prev_eos : Q) (pts : list row) : list (bool * Q * Q) :=
  match pts with
  | [] => []
  | (x, y, eos) :: rest => (Qeq_bool prev_eos 1, x, y) :: path_cmds eos rest
  end.

Definition svg_path (pts : list row) : list (bool * Q * Q) :=
  match pts with
  | [] => []
  | (x0, y0, _) :: _ => (true, x0, y0) :: path_cmds 1 pts
  end.

Section Geometry.

(** [drawing.denoise] and [drawing.align] (app/utils/drawing.py). *)
Variable denoise : list row -> list row.
Variable align : list (Q * Q) -> list (Q * Q).

(** [Hand._draw_segment(dwg, segment, x_position, y_position)].
    [offsets] is [segment.strokes] itself, not a copy: the in-place scaling
    [offsets[:, :2] *= ...] rewrites the segment's [strokes], so the call
    returns the segment as it is afterwards, with the positioned points and
    the path added to the drawing. [None] where Python raises ([strokes] is
    [None]; an empty array at [.min]; [align] changing the row count). *)
Definition draw_segment (segment : TextSegment) (x_position y_position : Q)
  : option (TextSegment * list row * list (bool * Q * Q)) :=
  match strokes segment with
  | None => None
  | Some offsets =>
      let strokes1 := offsets_to_coords offsets in
      let strokes2 := denoise strokes1 in
      let offsets' := scale_rows ((3 # 2) * scale segment) offsets in
      let segment' := with_strokes segment offsets' in
      let strokes3 := offsets_to_coords offsets' in
      let aligned := align (xy_of strokes3) in
      if negb (length aligned =? length strokes3) then None else
      let strokes4 := flip_y (set_xy strokes3 aligned) in
      match list_min (xs_of strokes4), list_min (ys_of strokes4) with
      | Some x_min, Some y_min =>
          let strokes5 := translate (x_position - x_min) (y_position - y_min) strokes4 in
          Some (segment', strokes5, svg_path strokes5)
      | _, _ => None
      end
  end.

End Geometry.

(** ** Routes of [src/backend/app/api/routes/handwriting_routes.py] *)

(** One entry of [segment_styles] in [generate_advanced_handwriting]: a dict
    whose keys may be absent ([None]). *)
Record StyleOverride := mkStyleOverride {
  ov_index : option (Z * Z);
  ov_style_id : option Z;
  ov_bias : option Q;
  ov_color : option pystr;
  ov_width : option Q;
  ov_scale : option Q
}.

(** [x = d[k] if k in d else x] *)
Definition override_opt {A : Type} (v : option A) (x : A) : A :=
  match v with Some y => y | None => x end.

(** The [if "..." in style_override: segment.... = ...] assignments. *)
Definition apply_fields (ov : StyleOverride) (segment : TextSegment) : TextSegment :=
  {| text := text segment;
     style_id := override_opt (ov_style_id ov) (style_id segment);
     bias := override_opt (ov_bias ov) (bias segment);
     stroke_color := override_opt (ov_color ov) (stroke_color segment);
     stroke_width := override_opt (ov_width ov) (stroke_width segment);
     scale := override_opt (ov_scale ov) (scale segment);
     strokes := strokes segment |}.

(** [l[i] = f(l[i])]; callers only use it at an index in range. *)
Fixpoint update_nth {A : Type} (i : nat) (f : A -> A) (l : list A) : list A :=
  match l, i with
  | [], _ => []
  | x :: rest, O => f x :: rest
  | x :: rest, S j => x :: update_nth j f rest
  end.

(** One override. [process_text] builds a fresh [TextSegment] object for each
    segment, so mutating [segments_by_line[line_idx][segment_idx]] changes
    exactly that position. *)
Definition apply_override (segments_by_line : list (list TextSegment)) (ov : StyleOverride)
  : list (list TextSegment) :=
  match ov_index ov with
  | None => segments_by_line
  | Some (line_idx, segment_idx) =>
      if (0 <=? line_idx)%Z && (line_idx <? Z.of_nat (length segments_by_line))%Z
         && (0 <=? segment_idx)%Z
         && (segment_idx <? Z.of_nat (length (nth (Z.to_nat line_idx) segments_by_line [])))%Z
      then update_nth (Z.to_nat line_idx)
             (update_nth (Z.to_nat segment_idx) (apply_fields ov)) segments_by_line
      else segments_by_line
  end.

(** [if segment_styles: for style_override in segment_styles: ...] *)
Definition apply_segment_styles (segment_styles : option (list StyleOverride))
  (segments_by_line : list (list TextSegment)) : list (list TextSegment) :=
  match segment_styles with
  | None => segments_by_line
  | Some ovs => fold_left apply_override ovs segments_by_line
  end.

(** [generate_a4_page]: page geometry. *)
Definition a4_page_width : Q := 794.
Definition a4_page_height : Q := 1123.

(** [chars_per_line = max(1, int(usable_width / char_width))] with
    [usable_width = 794 - 75 - 75] and [char_width = 10]. *)
Definition chars_per_line : nat := Nat.max 1 ((794 - 75 - 75) / 10).

(** The inner loop over [words] of one paragraph, from [current_line]. *)
Fixpoint wrap_words (cpl : nat) (words : list pystr) (current_line : pystr) : list pystr :=
  match words with
  | [] => match current_line with [] => [] | _ => [current_line] end
  | word :: rest =>
      if (length current_line + length word + 1 <=? cpl)%nat then
        wrap_words cpl rest
          (match current_line with
           | [] => word
           | _ => current_line ++ " "%char :: word
           end)
      else
        match current_line with
        | [] => wrap_words cpl rest word
        | _ => current_line :: wrap_words cpl rest word
        end
  end.

(** One paragraph: [""] when [paragraph.strip()] is empty, else its wrapped
    lines. *)
Definition a4_paragraph (paragraph : pystr) : list pystr :=
  if forallb isspace paragraph then [[]]
  else wrap_words chars_per_line (split_ws paragraph) [].

Definition a4_lines (t : pystr) : list pystr := flat_map a4_paragraph (split_lines t).

(** The [segments_by_line] of [generate_a4_page]. *)
Definition a4_segments (t : pystr) (style : Z) (b : Q) (color : pystr) (width : Q)
  : list (list TextSegment) :=
  map (fun line => [TextSegment_init line style b color width 1]) (a4_lines t).

(** The document [generate_a4_page] asks [_draw_segments] for. *)
Definition a4_document (segments_by_line : list (list TextSegment)) : Document :=
  draw_segments segments_by_line
    (mkLayoutConfig (3 # 2) 1 1 (list_ascii_of_string "left")
       (Some (794 - 75 - 75)))
    (Some (a4_page_width, a4_page_height)) (Some (75, 100, 75, 100)).

(** [list_styles]: the style ids found among the file names of the
    ["styles"] directory. *)

(** [s.startswith(pre)] and [s.endswith(suf)]. *)
Definition starts_with (pre s : pystr) : bool :=
  if list_eq_dec ascii_dec (firstn (length pre) s) pre then true else false.

Definition ends_with (suf s : pystr) : bool :=
  (length suf <=? length s)%nat
  && (if list_eq_dec ascii_dec (skipn (length s - length suf) s) suf then true else false).

Definition is_dash (c : ascii) : bool := Ascii.eqb c "-"%char.

(** [file.startswith("style-") and file.endswith(("-chars.npy", "-strokes.npy"))] *)
Definition is_style_file (file : pystr) : bool :=
  starts_with (list_ascii_of_string "style-") file
  && (ends_with (list_ascii_of_string "-chars.npy") file
      || ends_with (list_ascii_of_string "-strokes.npy") file).

Section ListStyles.

(** Python's [int(s)] on a string: [None] where it raises [ValueError]. *)
Variable py_int : pystr -> option Z.

(** [int(file.split("-")[1].split("-")[0])]; [None] where Python raises. *)
Definition style_id_of (file : pystr) : option Z :=
  match nth_error (split_sep is_dash file) 1 with
  | None => None
  | Some piece =>
      match nth_error (split_sep is_dash piece) 0 with
      | None => None
      | Some s => py_int s
      end
  end.

(** The loop over [style_files]; [None] as soon as one id fails to parse
    (the exception ends the route with a 500). *)
Fixpoint collect_style_ids (style_files : list pystr) : option (list Z) :=
  match style_files with
  | [] => Some []
  | file :: rest =>
      if is_style_file file then
        match style_id_of file, collect_style_ids rest with
        | Some z, Some ids => Some (z :: ids)
        | _, _ => None
        end
      else collect_style_ids rest
  end.

(** [sorted(list(set(ids)))]: insert each id into a strictly increasing list. *)
Fixpoint insert_sorted (z : Z) (l : list Z) : list Z :=
  match l with
  | [] => [z]
  | x :: rest =>
      if (z <? x)%Z then z :: l
      else if (z =? x)%Z then l
      else x :: insert_sorted z rest
  end.

Definition sorted_set (ids : list Z) : list Z := fold_right insert_sorted [] ids.

(** The ["styles"] list of the response ([None]: HTTP 500). *)
Definition list_styles (style_files : list pystr) : option (list Z) :=
  option_map sorted_set (collect_style_ids style_files).

End ListStyles.

(** [get_style] and [generate_preview]: the preview is [hand.write] on the
    first 30 characters of the stripped sample text, with the style id. *)

Fixpoint lstrip (s : pystr) : pystr :=
  match s with
  | [] => []
  | c :: rest => if isspace c then lstrip rest else s
  end.

(** [s.strip()] *)
Definition strip (s : pystr) : pystr := rev (lstrip (rev (lstrip s))).

(** [sample_text = chars_data.strip()], then
    [hand.write(lines=[sample_text[:30]], styles=[style_id])]. *)
Definition preview_segments (style_id : Z) (chars_data : pystr) : list (list TextSegment) :=
  write [firstn 30 (strip chars_data)] None (Some [style_id]) None None None.

(** ** Spec-side notions used in the statements *)

(** The spec's segment invariant: at most 75 characters, all supported. *)
Definition segment_valid (alphabet : list ascii) (segment : TextSegment) : bool :=
  (length (text segment) <=? 75) && forallb (in_alphabet alphabet) (text segment).

(** The [(line, segment)] coordinates cited by a validation error. *)
Definition error_at (e : ValueError) : nat * nat :=
  match e with
  | TooLong l s _ => (l, s)
  | InvalidChar _ l s => (l, s)
  end.

(** What the error cites besides the coordinates: the length when it is over
    75, otherwise a character of the text outside the alphabet. *)
Definition error_cites (alphabet : list ascii) (e : ValueError) (segment : TextSegment) : Prop :=
  match e with
  | TooLong _ _ n => n = length (text segment) /\ (75 < n)%nat
  | InvalidChar c _ _ => In c (text segment) /\ in_alphabet alphabet c = false
  end.

(** The spec's per-segment natural width: [len(text) * 10 * scale]. *)
Definition est_width_spec (s : TextSegment) : Q := Q_of_nat (length (text s)) * 10 * scale s.

(** The spec's total natural width: the segment widths plus one interstitial
    space between each two consecutive segments. *)
Definition total_natural_width_spec (segs : list TextSegment) (space_width : Q) : Q :=
  fold_right Qplus 0 (map est_width_spec segs) + Q_of_nat (length segs - 1) * space_width.

(** The spec's walk: each segment starts where the previous one started, plus
    the previous width and one space. *)
Fixpoint positions_spec (widths : list Q) (x space_width : Q) : list Q :=
  match widths with
  | [] => []
  | w :: rest => x :: positions_spec rest (x + w + space_width) space_width
  end.

(** The spec's word tokens: cut the line at every whitespace character and
    keep the non-empty pieces. *)
Definition nonempty (t : pystr) : bool := match t with [] => false | _ => true end.

Definition words_spec (line : pystr) : list pystr := filter nonempty (split_sep isspace line).

(** An optional per-line list that gives no value for line [i]. *)
Definition absent_or_short {A : Type} (xs : option (list A)) (i : nat) : Prop :=
  match xs with
  | None => True
  | Some l => (length l <= i)%nat
  end.

(** The example text of the spec: ["ab  cd\nef"]. *)
Definition example_ab_cd_ef : pystr :=
  list_ascii_of_string "ab  cd" ++ ["010"%char] ++ list_ascii_of_string "ef".

(** The segments with [strokes[i]] attached to the [i]-th one, in order. *)
Definition zip_strokes (segs : list TextSegment) (sts : list (list row)) : list TextSegment :=
  map (fun '(s, st) => with_strokes s st) (combine segs sts).

(** * Properties *)

(** ** Geometry helpers *)

Lemma Qle_bool_plus_r (a b c : Q) : Qle_bool (a + c) (b + c) = Qle_bool a b.
Proof.
  destruct (Qle_bool a b) eqn:E.
  - apply Qle_bool_iff. apply Qle_bool_iff in E. apply Qplus_le_l. exact E.
  - destruct (Qle_bool (a + c) (b + c)) eqn:F; [|reflexivity].
    apply Qle_bool_iff in F. apply Qplus_le_l in F.
    apply Qle_bool_iff in F. congruence.
Qed.

Lemma Qmin'_plus (a b c : Q) : Qmin' (a + c) (b + c) = (Qmin' a b) + c.
Proof. unfold Qmin'. rewrite Qle_bool_plus_r. destruct (Qle_bool a b); reflexivity. Qed.

Lemma list_min_cons2 (a b : Q) (l : list Q) :
  list_min (a :: b :: l) =
  match list_min (b :: l) with Some m => Some (Qmin' a m) | None => Some a end.
Proof. reflexivity. Qed.

Lemma list_min_shift (l : list Q) (c : Q) :
  list_min (map (fun a => a + c) l) = option_map (fun m => m + c) (list_min l).
Proof.
  induction l as [|a l IH]; [reflexivity|].
  destruct l as [|b l']; [reflexivity|].
  simpl map in *. rewrite !list_min_cons2, IH.
  destruct (list_min (b :: l')); simpl; [|reflexivity].
  rewrite Qmin'_plus. reflexivity.
Qed.

Lemma list_min_nonempty (l : list Q) : l <> [] -> exists m, list_min l = Some m.
Proof.
  intros H. induction l as [|a l IH]; [congruence|].
  destruct l as [|b l']; [eexists; reflexivity|].
  destruct IH as [m Hm]; [discriminate|].
  exists (Qmin' a m). simpl in *. rewrite Hm. reflexivity.
Qed.

Lemma xs_of_translate (dx dy : Q) (pts : list row) :
  xs_of (translate dx dy pts) = map (fun a => a + dx) (xs_of pts).
Proof. induction pts as [|[[x y] e] pts IH]; simpl; [reflexivity|]. now rewrite IH. Qed.

Lemma ys_of_translate (dx dy : Q) (pts : list row) :
  ys_of (translate dx dy pts) = map (fun a => a + dy) (ys_of pts).
Proof. induction pts as [|[[x y] e] pts IH]; simpl; [reflexivity|]. now rewrite IH. Qed.

Lemma offsets_to_coords_from_length (x y : Q) (l : list row) :
  length (offsets_to_coords_from x y l) = length l.
Proof.
  revert x y. induction l as [|[[dx dy] e] l IH]; intros; simpl; [reflexivity|].
  now rewrite IH.
Qed.

Lemma offsets_to_coords_length (l : list row) :
  length (offsets_to_coords l) = length l.
Proof. apply offsets_to_coords_from_length. Qed.

Lemma set_xy_length (pts : list row) (xy : list (Q * Q)) :
  length xy = length pts -> length (set_xy pts xy) = length pts.
Proof.
  intros H. unfold set_xy. rewrite length_map, length_combine, H. apply Nat.min_id.
Qed.

Lemma length_xs_of (pts : list row) : length (xs_of pts) = length pts.
Proof. apply length_map. Qed.

Lemma length_ys_of (pts : list row) : length (ys_of pts) = length pts.
Proof. apply length_map. Qed.

Lemma length_flip_y (pts : list row) : length (flip_y pts) = length pts.
Proof. apply length_map. Qed.

Lemma length_scale_rows (k : Q) (pts : list row) : length (scale_rows k pts) = length pts.
Proof. apply length_map. Qed.

Lemma nonempty_of_length {A B : Type} (l : list A) (l' : list B) :
  length l = length l' -> l' <> [] -> l <> [].
Proof. intros H H' ->. destruct l'; simpl in H; congruence. Qed.

Section DrawSegment.

Variable denoise : list row -> list row.
Variable align : list (Q * Q) -> list (Q * Q).
Hypothesis align_rows : forall pts, length (align pts) = length pts.

(** On a non-empty array, [_draw_segment] runs to the end: it rescales the
    segment's own [strokes] and translates the aligned, flipped points by the
    anchor minus their column minima. *)
Lemma draw_segment_some (segment : TextSegment) (offsets : list row) (x y : Q) :
  strokes segment = Some offsets -> offsets <> [] ->
  let offsets' := scale_rows ((3 # 2) * scale segment) offsets in
  let s3 := offsets_to_coords offsets' in
  let s4 := flip_y (set_xy s3 (align (xy_of s3))) in
  exists x_min y_min,
    list_min (xs_of s4) = Some x_min /\ list_min (ys_of s4) = Some y_min /\
    draw_segment denoise align segment x y =
      Some (with_strokes segment offsets',
            translate (x - x_min) (y - y_min) s4,
            svg_path (translate (x - x_min) (y - y_min) s4)).
Proof.
  intros Hstrokes Hne offsets' s3 s4.
  assert (Hl3 : length s3 = length offsets)
    by (unfold s3, offsets'; now rewrite offsets_to_coords_length, length_scale_rows).
  assert (Hl4 : length s4 = length offsets).
  { unfold s4. rewrite length_flip_y, set_xy_length; [exact Hl3|].
    rewrite align_rows. apply length_map. }
  destruct (list_min_nonempty (xs_of s4)) as [mx Hmx].
  { apply (nonempty_of_length _ offsets); [now rewrite length_xs_of|exact Hne]. }
  destruct (list_min_nonempty (ys_of s4)) as [my Hmy].
  { apply (nonempty_of_length _ offsets); [now rewrite length_ys_of|exact Hne]. }
  exists mx, my. split; [exact Hmx|]. split; [exact Hmy|].
  unfold draw_segment. rewrite Hstrokes. cbv zeta. fold offsets' s3.
  assert (Hal : length (align (xy_of s3)) = length s3)
    by (rewrite align_rows; apply length_map).
  rewrite Hal, Nat.eqb_refl. simpl negb. cbv iota. fold s4.
  rewrite Hmx, Hmy. reflexivity.
Qed.

End DrawSegment.

(** ** C1: the drawn segment is anchored at its layout position *)

(** C1. For every non-empty sampled offset array, every anchor
    [(x_position, y_position)], every [drawing.denoise] and every
    row-preserving [drawing.align], [_draw_segment] succeeds and the
    positioned points have column minima exactly [(x_position, y_position)]. *)
Theorem draw_segment_anchored
  (denoise : list row -> list row) (align : list (Q * Q) -> list (Q * Q))
  (align_rows : forall pts, length (align pts) = length pts)
  (segment : TextSegment) (offsets : list row) (x_position y_position : Q)
  (Hstrokes : strokes segment = Some offsets) (Hne : offsets <> []) :
  exists segment' pts path x_min y_min,
    draw_segment denoise align segment x_position y_position = Some (segment', pts, path)
    /\ list_min (xs_of pts) = Some x_min /\ list_min (ys_of pts) = Some y_min
    /\ x_min == x_position /\ y_min == y_position.
Proof.
  destruct (draw_segment_some denoise align align_rows segment offsets
              x_position y_position Hstrokes Hne) as (mx & my & Hmx & Hmy & Hd).
  do 3 eexists. exists (mx + (x_position - mx)), (my + (y_position - my)).
  split; [exact Hd|].
  rewrite xs_of_translate, ys_of_translate, !list_min_shift, Hmx, Hmy.
  repeat split; simpl; ring.
Qed.

(** C1 at a sampled array of three rows, the spec's denoising and the
    identity alignment, anchored at [(5, 7)]. *)
Lemma draw_segment_anchored_witness :
  exists segment' pts path x_min y_min,
    draw_segment denoise_spec (fun p => p)
      (with_strokes (TextSegment_init (list_ascii_of_string "ab") 0 (1 # 2)
                       (list_ascii_of_string "black") 2 1)
                    [(1, 0, 1); (0, 1, 0); (2, -1, 0)]) 5 7
    = Some (segment', pts, path)
    /\ list_min (xs_of pts) = Some x_min /\ list_min (ys_of pts) = Some y_min
    /\ x_min == 5 /\ y_min == 7.
Proof.
  apply (draw_segment_anchored denoise_spec (fun p => p) (fun _ => eq_refl)
           (with_strokes (TextSegment_init (list_ascii_of_string "ab") 0 (1 # 2)
                            (list_ascii_of_string "black") 2 1)
                         [(1, 0, 1); (0, 1, 0); (2, -1, 0)])
           [(1, 0, 1); (0, 1, 0); (2, -1, 0)] 5 7); [reflexivity | discriminate].
Defined.

(** ** C2: the result of [denoise] is overwritten *)

(** C2 (code_bug). [_draw_segment] assigns [strokes = drawing.denoise(strokes)]
    and then overwrites [strokes] with [offsets_to_coords(offsets)] of the raw
    (rescaled) offsets: whatever [denoise] does, the drawn output is the same.
    On the sampled array [(1,0,1); (0,0,1); (1,0,0)], whose integrated points
    contain a duplicate that the spec's denoising drops (2 points remain), the
    drawn segment still has 3 points, for every row-preserving [align]. *)
Theorem draw_segment_ignores_denoise :
  let offsets : list row := [(1, 0, 1); (0, 0, 1); (1, 0, 0)] in
  let segment := with_strokes (TextSegment_init (list_ascii_of_string "ab") 0 (1 # 2)
                                 (list_ascii_of_string "black") 2 1) offsets in
  (forall (denoise1 denoise2 : list row -> list row)
          (align : list (Q * Q) -> list (Q * Q)) (segment : TextSegment) (x y : Q),
      draw_segment denoise1 align segment x y = draw_segment denoise2 align segment x y)
  /\ length (denoise_spec (offsets_to_coords offsets)) = 2%nat
  /\ (forall align : list (Q * Q) -> list (Q * Q),
        (forall pts, length (align pts) = length pts) ->
        exists segment' pts path,
          draw_segment denoise_spec align segment 0 0 = Some (segment', pts, path)
          /\ length pts = 3%nat).
Proof.
  intros offsets segment.
  split; [intros; reflexivity|].
  split; [vm_compute; reflexivity|].
  intros align align_rows.
  destruct (draw_segment_some denoise_spec align align_rows segment offsets 0 0
              eq_refl ltac:(discriminate)) as (mx & my & _ & _ & Hd).
  do 3 eexists. split; [exact Hd|].
  unfold translate. rewrite length_map, length_flip_y, set_xy_length.
  - reflexivity.
  - rewrite align_rows. apply length_map.
Qed.

(** ** C3: drawing rescales the segment's own strokes *)

(** C3 (code_bug). [offsets = segment.strokes] aliases the segment's array and
    [offsets[:, :2] *= 1.5 * segment.scale] rescales it in place: after one
    [_draw_segment] the segment's [strokes] differ from the sampled ones, and
    a second drawing of the same segment gives a different geometry (with
    [align] the identity, as the regression-based alignment is on these
    points, which all lie on [y = 0]). *)
Theorem draw_segment_mutates_strokes :
  let segment := with_strokes (TextSegment_init (list_ascii_of_string "a") 0 (1 # 2)
                                 (list_ascii_of_string "black") 2 1)
                              [(1, 0, 1); (1, 0, 0)] in
  (forall (denoise : list row -> list row) (align : list (Q * Q) -> list (Q * Q)),
      (forall pts, length (align pts) = length pts) ->
      exists segment' pts path,
        draw_segment denoise align segment 0 0 = Some (segment', pts, path)
        /\ strokes segment' <> strokes segment)
  /\ (exists segment1 pts1 path1 segment2 pts2 path2,
        draw_segment denoise_spec (fun p => p) segment 0 0 = Some (segment1, pts1, path1)
        /\ draw_segment denoise_spec (fun p => p) segment1 0 0
           = Some (segment2, pts2, path2)
        /\ nth 1 (xs_of pts1) 0 == 3 # 2
        /\ nth 1 (xs_of pts2) 0 == 9 # 4).
Proof.
  intros segment. split.
  - intros denoise align align_rows.
    destruct (draw_segment_some denoise align align_rows segment
                [(1, 0, 1); (1, 0, 0)] 0 0 eq_refl ltac:(discriminate))
      as (mx & my & _ & _ & Hd).
    do 3 eexists. split; [exact Hd|].
    vm_compute. discriminate.
  - do 6 eexists. split; [vm_compute; reflexivity|].
    split; [vm_compute; reflexivity|].
    split; vm_compute; reflexivity.
Qed.

(** ** C4: validation *)

Section ValidateProofs.

Variable alphabet : list ascii.

Lemma validate_segment_ok (l s : nat) (seg : TextSegment) :
  validate_segment alphabet l s seg = Ok tt <-> segment_valid alphabet seg = true.
Proof.
  unfold validate_segment, segment_valid.
  destruct (75 <? length (text seg)) eqn:L.
  - apply Nat.ltb_lt in L. split; [discriminate|].
    intros H. apply andb_true_iff in H as [H _]. apply Nat.leb_le in H. lia.
  - apply Nat.ltb_ge in L. apply Nat.leb_le in L. rewrite L. simpl.
    destruct (find (fun c => negb (in_alphabet alphabet c)) (text seg)) eqn:F.
    + apply find_some in F as [Hin Hc]. split; [discriminate|].
      intros H. rewrite forallb_forall in H. specialize (H a Hin).
      rewrite H in Hc. discriminate.
    + split; [intros _|reflexivity]. apply forallb_forall. intros c Hin.
      pose proof (find_none _ _ F c Hin) as Hc. now apply negb_false_iff.
Qed.

Lemma validate_segment_raise (l s : nat) (seg : TextSegment) (e : ValueError) :
  validate_segment alphabet l s seg = Raise e ->
  segment_valid alphabet seg = false /\ error_at e = (l, s) /\ error_cites alphabet e seg.
Proof.
  unfold validate_segment, segment_valid. intros H.
  destruct (75 <? length (text seg)) eqn:L.
  - inversion H; subst. apply Nat.ltb_lt in L.
    replace (length (text seg) <=? 75) with false by (symmetry; apply Nat.leb_gt; lia).
    simpl. auto.
  - destruct (find (fun c => negb (in_alphabet alphabet c)) (text seg)) as [c|] eqn:F;
      [|discriminate].
    inversion H; subst. apply find_some in F as [Hin Hc]. apply negb_true_iff in Hc.
    split; [|split; [reflexivity|simpl; auto]].
    apply andb_false_iff. right. apply not_true_iff_false. rewrite forallb_forall.
    intros Hall. rewrite (Hall c Hin) in Hc. discriminate.
Qed.

Lemma validate_segment_cases (l s : nat) (seg : TextSegment) :
  validate_segment alphabet l s seg = Ok tt \/
  exists e, validate_segment alphabet l s seg = Raise e.
Proof.
  destruct (validate_segment alphabet l s seg) as [[]|e]; [left|right; exists e]; reflexivity.
Qed.

Lemma validate_line_ok (l k : nat) (line : list TextSegment) :
  validate_line alphabet l k line = Ok tt <->
  (forall s seg, nth_error line s = Some seg -> segment_valid alphabet seg = true).
Proof.
  revert k. induction line as [|seg rest IH]; intros k; simpl.
  - split; [intros _ [|s] seg H; discriminate|reflexivity].
  - destruct (validate_segment_cases l k seg) as [Hv|[e Hv]]; rewrite Hv.
    + rewrite IH. apply validate_segment_ok in Hv. split.
      * intros H [|s] seg' Hs; [now inversion Hs; subst|exact (H s seg' Hs)].
      * intros H s seg' Hs. exact (H (S s) seg' Hs).
    + apply validate_segment_raise in Hv as [Hf _]. split; [discriminate|].
      intros H. rewrite (H 0%nat seg eq_refl) in Hf. discriminate.
Qed.

Lemma validate_line_raise (l k : nat) (line : list TextSegment) (e : ValueError) :
  validate_line alphabet l k line = Raise e ->
  exists s seg, nth_error line s = Some seg /\ segment_valid alphabet seg = false
    /\ error_at e = (l, k + s)%nat /\ error_cites alphabet e seg
    /\ (forall s' seg', (s' < s)%nat -> nth_error line s' = Some seg' ->
          segment_valid alphabet seg' = true).
Proof.
  revert k. induction line as [|seg rest IH]; intros k; simpl; [discriminate|].
  destruct (validate_segment_cases l k seg) as [Hv|[e' Hv]]; rewrite Hv.
  - intros H. destruct (IH (S k) H) as (s & seg' & Hs & Hf & Hat & Hc & Hbefore).
    apply validate_segment_ok in Hv.
    exists (S s), seg'. repeat split; auto.
    + rewrite Hat. f_equal. lia.
    + intros [|s'] seg'' Hlt Hs'; [now inversion Hs'; subst|].
      apply (Hbefore s'); [lia|exact Hs'].
  - intros H. inversion H; subst.
    apply validate_segment_raise in Hv as (Hf & Hat & Hc).
    exists 0%nat, seg. repeat split; auto.
    + rewrite Hat, Nat.add_0_r. reflexivity.
    + intros s' seg' Hlt. lia.
Qed.

Lemma validate_lines_ok (k : nat) (segs : list (list TextSegment)) :
  validate_lines alphabet k segs = Ok tt <->
  (forall l s line seg, nth_error segs l = Some line -> nth_error line s = Some seg ->
     segment_valid alphabet seg = true).
Proof.
  revert k. induction segs as [|line rest IH]; intros k; simpl.
  - split; [intros _ [|l] s line seg H; discriminate|reflexivity].
  - destruct (validate_line alphabet k 0 line) as [[]|e] eqn:Hv.
    + rewrite IH. rewrite validate_line_ok in Hv. split.
      * intros H [|l] s line' seg Hl Hs; [inversion Hl; subst; exact (Hv s seg Hs)|].
        exact (H l s line' seg Hl Hs).
      * intros H l s line' seg Hl Hs. exact (H (S l) s line' seg Hl Hs).
    + split; [discriminate|]. intros H.
      apply validate_line_raise in Hv as (s & seg & Hs & Hf & _).
      rewrite (H 0%nat s line seg eq_refl Hs) in Hf. discriminate.
Qed.

Lemma validate_lines_raise (k : nat) (segs : list (list TextSegment)) (e : ValueError) :
  validate_lines alphabet k segs = Raise e ->
  exists l s line seg, nth_error segs l = Some line /\ nth_error line s = Some seg
    /\ segment_valid alphabet seg = false
    /\ error_at e = ((k + l)%nat, s) /\ error_cites alphabet e seg
    /\ (forall l' s' line' seg', ((l' < l)%nat \/ (l' = l /\ (s' < s)%nat)) ->
          nth_error segs l' = Some line' -> nth_error line' s' = Some seg' ->
          segment_valid alphabet seg' = true).
Proof.
  revert k. induction segs as [|line rest IH]; intros k; simpl; [discriminate|].
  destruct (validate_line alphabet k 0 line) as [[]|e'] eqn:Hv.
  - intros H. destruct (IH (S k) H) as (l & s & line' & seg & Hl & Hs & Hf & Hat & Hc & Hb).
    rewrite validate_line_ok in Hv.
    exists (S l), s, line', seg. repeat split; auto.
    + rewrite Hat. f_equal. lia.
    + intros [|l'] s' line'' seg' Hlt Hl' Hs'.
      * inversion Hl'; subst. exact (Hv s' seg' Hs').
      * apply (Hb l' s' line'' seg'); [lia|exact Hl'|exact Hs'].
  - intros H. inversion H; subst.
    apply validate_line_raise in Hv as (s & seg & Hs & Hf & Hat & Hc & Hb).
    exists 0%nat, s, line, seg. repeat split; auto.
    + rewrite Hat, Nat.add_0_r. reflexivity.
    + intros l' s' line' seg' [Hlt|[-> Hlt]] Hl' Hs'; [lia|].
      inversion Hl'; subst. exact (Hb s' seg' Hlt Hs').
Qed.

End ValidateProofs.

(** C4. [_validate_segments] returns normally exactly when every segment of
    every line has at most 75 characters, all in the alphabet. When it raises,
    the error cites the line and segment indices of the first offending
    segment in scan order (every segment before it is valid), together with
    the length or an unsupported character of that segment, and
    [write_segments] raises it without issuing any sampler call. *)
Theorem validate_segments_first_violation
  (alphabet : list ascii) (sample : list pystr -> list Q -> list Z -> list (list row))
  (segments_by_line : list (list TextSegment)) (layout_config : option LayoutConfig)
  (page_dimensions : option (Q * Q)) (margins : option (Q * Q * Q * Q)) :
  (validate_segments alphabet segments_by_line = Ok tt <->
   (forall l s line seg, nth_error segments_by_line l = Some line ->
      nth_error line s = Some seg ->
      (length (text seg) <= 75)%nat /\ forallb (in_alphabet alphabet) (text seg) = true))
  /\ (forall e, validate_segments alphabet segments_by_line = Raise e ->
      (exists l s line seg,
         nth_error segments_by_line l = Some line /\ nth_error line s = Some seg
         /\ segment_valid alphabet seg = false
         /\ error_at e = (l, s) /\ error_cites alphabet e seg
         /\ (forall l' s' line' seg', ((l' < l)%nat \/ (l' = l /\ (s' < s)%nat)) ->
               nth_error segments_by_line l' = Some line' ->
               nth_error line' s' = Some seg' -> segment_valid alphabet seg' = true))
      /\ write_segments alphabet sample segments_by_line layout_config
           page_dimensions margins = ([], inl (ExnValue e))).
Proof.
  split.
  - unfold validate_segments. rewrite validate_lines_ok.
    split; intros H l s line seg Hl Hs; specialize (H l s line seg Hl Hs).
    + unfold segment_valid in H. apply andb_true_iff in H as [H1 H2].
      apply Nat.leb_le in H1. auto.
    + destruct H as [H1 H2]. unfold segment_valid. apply Nat.leb_le in H1.
      now rewrite H1, H2.
  - intros e He. split.
    + apply validate_lines_raise in He.
      destruct He as (l & s & line & seg & Hl & Hs & Hf & Hat & Hc & Hb).
      exists l, s, line, seg. repeat split; auto.
    + unfold write_segments. now rewrite He.
Qed.

(** ** C5: horizontal layout of a line *)

Lemma Q_of_nat_succ (n : nat) : Q_of_nat (S n) == Q_of_nat n + 1.
Proof. unfold Q_of_nat. rewrite Nat2Z.inj_succ, <- Z.add_1_r, inject_Z_plus. reflexivity. Qed.

Lemma estimate_loop_metrics (segs : list TextSegment) (i n : nat) (sp total : Q) :
  fst (estimate_loop segs i n sp total) =
  map (fun s => mkMetrics (est_width_spec s) 0 (est_width_spec s)) segs.
Proof.
  revert i total. induction segs as [|s rest IH]; intros i total; [reflexivity|].
  simpl. destruct (estimate_loop rest (S i) n sp _) as [ms t] eqn:E.
  simpl. f_equal. specialize (IH (S i) (if (i <? n - 1)%nat then total + est_width_spec s + sp
                                       else total + est_width_spec s)).
  unfold est_width_spec in IH. rewrite E in IH. exact IH.
Qed.

Lemma estimate_loop_total (segs : list TextSegment) (i n : nat) (sp total : Q) :
  (i + length segs)%nat = n ->
  snd (estimate_loop segs i n sp total) ==
  total + total_natural_width_spec segs sp.
Proof.
  revert i total. induction segs as [|s rest IH]; intros i total Hn.
  - simpl. unfold total_natural_width_spec. simpl. unfold Q_of_nat. simpl. ring.
  - simpl. set (w := Q_of_nat (length (text s)) * 10 * scale s).
    destruct rest as [|s' rest'].
    + simpl in Hn. replace (i <? n - 1)%nat with false by (symmetry; apply Nat.ltb_ge; lia).
      simpl. unfold total_natural_width_spec. simpl. unfold est_width_spec. fold w.
      unfold Q_of_nat. simpl. ring.
    + simpl in Hn. replace (i <? n - 1)%nat with true by (symmetry; apply Nat.ltb_lt; lia).
      specialize (IH (S i) (total + w + sp) ltac:(simpl; lia)).
      destruct (estimate_loop (s' :: rest') (S i) n sp (total + w + sp)) as [ms t] eqn:E.
      simpl in *. rewrite IH. unfold total_natural_width_spec. simpl.
      rewrite Nat.sub_0_r, Q_of_nat_succ. unfold est_width_spec, w.
      replace (length rest' - 0)%nat with (length rest') by lia. ring.
Qed.

Lemma position_loop_spec (ms : list Metrics) (i n : nat) (sp x : Q) :
  (i + length ms)%nat = n ->
  map x_position (position_loop ms i n sp x) = positions_spec (map natural_width ms) x sp
  /\ map natural_width (position_loop ms i n sp x) = map natural_width ms
  /\ map width (position_loop ms i n sp x) = map width ms.
Proof.
  revert i x. induction ms as [|m rest IH]; intros i x Hn; [repeat split|].
  destruct rest as [|m' rest'].
  - simpl. repeat split.
  - simpl in Hn.
    assert (Hc : (i <? n - 1)%nat = true) by (apply Nat.ltb_lt; lia).
    set (PL := position_loop (m' :: rest') (S i) n sp (x + natural_width m + sp)).
    assert (Hstep : position_loop (m :: m' :: rest') i n sp x =
                    mkMetrics (natural_width m) x (width m) :: PL).
    { change (mkMetrics (natural_width m) x (width m)
                :: position_loop (m' :: rest') (S i) n sp
                     (if (i <? n - 1)%nat then x + natural_width m + sp
                      else x + natural_width m) = mkMetrics (natural_width m) x (width m) :: PL).
      rewrite Hc. reflexivity. }
    destruct (IH (S i) (x + natural_width m + sp) ltac:(simpl; lia)) as (H1 & H2 & H3).
    fold PL in H1, H2, H3. rewrite Hstep.
    split; [|split].
    + change (x :: map x_position PL =
              x :: positions_spec (map natural_width (m' :: rest')) (x + natural_width m + sp) sp).
      rewrite H1. reflexivity.
    + change (natural_width m :: map natural_width PL =
              natural_width m :: map natural_width (m' :: rest')).
      rewrite H2. reflexivity.
    + change (width m :: map width PL = width m :: map width (m' :: rest')).
      rewrite H3. reflexivity.
Qed.

(** C5. [_calculate_segment_metrics] returns one entry per segment, in order,
    each with natural width [len(text) * 10 * scale]; the x positions start at
    an offset equal to 0 for "left" and "justify", to [(W - T) / 2] for
    "center" and to [W - T] for "right", with [T] the widths plus one space
    [10 * word_spacing] between consecutive segments, and each next position
    is the previous one plus the previous width plus that space. "justify"
    gives exactly the metrics of "left". *)
Theorem calculate_segment_metrics_layout
  (segs : list TextSegment) (W : Q) (cfg : LayoutConfig) :
  let space_width := 10 * word_spacing cfg in
  let T := total_natural_width_spec segs space_width in
  let ms := calculate_segment_metrics segs W cfg in
  map natural_width ms = map est_width_spec segs
  /\ map width ms = map est_width_spec segs
  /\ (exists x0,
        map x_position ms = positions_spec (map est_width_spec segs) x0 space_width
        /\ (alignment cfg = list_ascii_of_string "left" -> x0 == 0)
        /\ (alignment cfg = list_ascii_of_string "justify" -> x0 == 0)
        /\ (alignment cfg = list_ascii_of_string "center" -> x0 == (W - T) / 2)
        /\ (alignment cfg = list_ascii_of_string "right" -> x0 == W - T))
  /\ calculate_segment_metrics segs W
       (mkLayoutConfig (line_spacing cfg) (word_spacing cfg) (char_spacing cfg)
          (list_ascii_of_string "justify") (max_width cfg))
     = calculate_segment_metrics segs W
       (mkLayoutConfig (line_spacing cfg) (word_spacing cfg) (char_spacing cfg)
          (list_ascii_of_string "left") (max_width cfg)).
Proof.
  intros space_width T ms.
  unfold ms, calculate_segment_metrics. fold space_width.
  pose proof (estimate_loop_metrics segs 0 (length segs) space_width 0) as Hm.
  pose proof (estimate_loop_total segs 0 (length segs) space_width 0 eq_refl) as Ht.
  destruct (estimate_loop segs 0 (length segs) space_width 0) as [ms0 t] eqn:E.
  simpl in Hm, Ht. subst ms0.
  set (x0 := start_x cfg W t).
  destruct (position_loop_spec
              (map (fun s => mkMetrics (est_width_spec s) 0 (est_width_spec s)) segs)
              0 _ space_width x0 eq_refl) as (H1 & H2 & H3).
  rewrite !map_map in *. simpl in *.
  assert (Hw : map (fun x => est_width_spec x) segs = map est_width_spec segs) by reflexivity.
  split; [rewrite H2; exact Hw|].
  split; [rewrite H3; exact Hw|].
  split.
  - exists x0. split; [rewrite H1; reflexivity|].
    unfold x0, start_x, is_str. fold T in Ht.
    repeat split; intros ->; simpl; try reflexivity; rewrite Ht, Qplus_0_l; reflexivity.
  - reflexivity.
Qed.

(** ** C6: vertical position of each line *)

Lemma draw_line_nil (usable_width left_margin : Q) (cfg : LayoutConfig) (y : Q) :
  draw_line usable_width left_margin cfg [] y = [].
Proof. reflexivity. Qed.

Lemma draw_lines_positions (lh usable_width left_margin top : Q) (cfg : LayoutConfig)
  (lines : list (list TextSegment)) (k : nat) (y : Q) :
  y == top + lh * (Q_of_nat k + (3 # 4)) ->
  exists ys, length ys = length lines
    /\ (forall i y', nth_error ys i = Some y' ->
          y' == top + lh * (Q_of_nat (k + i) + (3 # 4)))
    /\ draw_lines lh usable_width left_margin cfg lines y
       = concat (map (fun '(l, y') => draw_line usable_width left_margin cfg l y')
                     (combine lines ys)).
Proof.
  revert k y. induction lines as [|line rest IH]; intros k y Hy.
  - exists []. repeat split. intros [|i] y' H; discriminate.
  - destruct (IH (S k) (y + lh)) as (ys & Hlen & Hys & Hdraw).
    { rewrite Hy, Q_of_nat_succ. ring. }
    exists (y :: ys). split; [simpl; now rewrite Hlen|]. split.
    + intros [|i] y' H; simpl in H.
      * inversion H; subst. rewrite Nat.add_0_r. exact Hy.
      * rewrite (Hys i y' H). rewrite Nat.add_succ_r. reflexivity.
    + simpl. rewrite <- Hdraw. destruct line; reflexivity.
Qed.

(** C6. In [_draw_segments], line [i] (counting every line, empty ones
    included) is drawn at [y = top_margin + base_line_height * line_spacing
    * (i + 0.75)]: the drawn segments are exactly those of each line, drawn at
    that line's [y], in order; an empty line draws nothing but still moves
    the next line one line height down. *)
Theorem draw_segments_line_y
  (segments_by_line : list (list TextSegment)) (cfg : LayoutConfig)
  (page_dimensions : option (Q * Q)) (margins : option (Q * Q * Q * Q)) :
  let doc := draw_segments segments_by_line cfg page_dimensions margins in
  let line_height := base_line_height * line_spacing cfg in
  let '(left_margin, top_margin, right_margin, _) :=
    match margins with Some m => m | None => (0, 0, 0, 0) end in
  let usable_width := view_width doc - left_margin - right_margin in
  (exists ys, length ys = length segments_by_line
    /\ (forall i y, nth_error ys i = Some y ->
          y == top_margin + line_height * (Q_of_nat i + (3 # 4)))
    /\ draw_calls doc
       = concat (map (fun '(l, y) => draw_line usable_width left_margin cfg l y)
                     (combine segments_by_line ys)))
  /\ (forall y, draw_line usable_width left_margin cfg [] y = []).
Proof.
  destruct margins as [[[[lm tm] rm] bm]|]; simpl;
  (split; [|intros; reflexivity]);
  unfold draw_segments;
  (destruct page_dimensions as [[pw ph]|]; simpl);
  match goal with
  | |- context [draw_lines ?lh ?uw ?lm' ?c ?ls (?tm + ?d)] =>
      destruct (draw_lines_positions lh uw lm' tm c ls 0 (tm + d)) as (ys & H1 & H2 & H3)
  end;
  try (unfold Q_of_nat; simpl; ring);
  exists ys; (split; [exact H1|]); (split; [exact H2|exact H3]).
Qed.

(** ** C9: page size without explicit dimensions *)

(** C9. Without [page_dimensions] the page is 1000 wide and
    [max(1, len(segments_by_line)) * base_line_height * line_spacing] high;
    with no line at all it is one line height high, and with one empty line
    and one one-segment line it is two line heights high. *)
Theorem draw_segments_default_page
  (segments_by_line : list (list TextSegment)) (cfg : LayoutConfig)
  (margins : option (Q * Q * Q * Q)) (segment : TextSegment) :
  let line_height := base_line_height * line_spacing cfg in
  view_width (draw_segments segments_by_line cfg None margins) = 1000
  /\ view_height (draw_segments segments_by_line cfg None margins)
     == Q_of_nat (Nat.max 1 (length segments_by_line)) * line_height
  /\ view_height (draw_segments [] cfg None margins) == line_height
  /\ view_height (draw_segments [[]; [segment]] cfg None margins) == 2 * line_height.
Proof.
  intros line_height. unfold line_height, draw_segments.
  destruct margins as [[[[lm tm] rm] bm]|]; simpl;
    repeat split; unfold Q_of_nat; simpl; try reflexivity; ring.
Qed.

(** ** C7 and C8: segmentation *)

Lemma split_ws_aux_words (s cur : pystr) :
  split_ws_aux s cur = filter nonempty (split_sep_aux isspace s cur).
Proof.
  revert cur. induction s as [|c r IH]; intros cur; simpl.
  - destruct cur; reflexivity.
  - destruct (isspace c); [|apply IH].
    destruct cur; simpl; rewrite IH; reflexivity.
Qed.

Lemma split_ws_words (line : pystr) : split_ws line = words_spec line.
Proof. apply split_ws_aux_words. Qed.

Lemma join_split_sep_aux (s cur : pystr) :
  join ["010"%char] (split_sep_aux is_newline s cur) = cur ++ s.
Proof.
  revert cur. induction s as [|c r IH]; intros cur; simpl.
  - rewrite app_nil_r. reflexivity.
  - destruct (is_newline c) eqn:Hc.
    + unfold is_newline in Hc. apply Ascii.eqb_eq in Hc. subst c.
      specialize (IH []). simpl in IH.
      destruct (split_sep_aux is_newline r []) eqn:E.
      * destruct r; simpl in E; [discriminate|destruct (is_newline a); discriminate].
      * change (cur ++ ["010"%char] ++ join ["010"%char] (p :: l) = cur ++ "010"%char :: r).
        rewrite IH. reflexivity.
    + rewrite IH, <- app_assoc. reflexivity.
Qed.

Lemma split_sep_aux_pieces (p : ascii -> bool) (s cur : pystr) :
  (forall c, In c cur -> p c = false) ->
  forall t, In t (split_sep_aux p s cur) -> forall c, In c t -> p c = false.
Proof.
  revert cur. induction s as [|a r IH]; intros cur Hcur t Ht; simpl in Ht.
  - destruct Ht as [<-|[]]. exact Hcur.
  - destruct (p a) eqn:Ha.
    + destruct Ht as [<-|Ht]; [exact Hcur|].
      apply (IH []); [intros c []|exact Ht].
    + apply (IH (cur ++ [a])); [|exact Ht].
      intros c Hc. apply in_app_or in Hc as [Hc|[<-|[]]]; [exact (Hcur c Hc)|exact Ha].
Qed.

Lemma process_text_map (alphabet : list ascii) (t seg : pystr) (ds : Z) (db : Q) (dc : pystr)
  (dw dsc : Q) (f : pystr -> list TextSegment) :
  (forall line, process_line alphabet seg ds db dc dw dsc line = f line) ->
  process_text alphabet t seg ds db dc dw dsc = map f (split_lines t).
Proof. intros H. unfold process_text. apply map_ext. exact H. Qed.

(** C7. With [segmentation = "word"], [process_text] cuts the text at every
    newline, keeping empty pieces (joining the lines back with newlines gives
    the text), and each line becomes one segment per whitespace-delimited
    token, in order, with the default style: the non-empty pieces between
    whitespace characters, so tokens are non-empty and contain no whitespace.
    On ["ab  cd\nef"] the segment texts are [["ab"; "cd"]; ["ef"]]. *)
Theorem process_text_word (alphabet : list ascii) (t : pystr) (ds : Z) (db : Q)
  (dc : pystr) (dw dsc : Q) :
  let mk w := TextSegment_init w ds db dc dw dsc in
  process_text alphabet t (list_ascii_of_string "word") ds db dc dw dsc
    = map (fun line => map mk (words_spec line)) (split_lines t)
  /\ join ["010"%char] (split_lines t) = t
  /\ (forall line c, In line (split_lines t) -> In c line -> is_newline c = false)
  /\ (forall line w c, In line (split_lines t) -> In w (words_spec line) ->
        w <> [] /\ (In c w -> isspace c = false))
  /\ map (map text)
       (process_text alphabet example_ab_cd_ef (list_ascii_of_string "word") ds db dc dw dsc)
     = [[list_ascii_of_string "ab"; list_ascii_of_string "cd"]; [list_ascii_of_string "ef"]].
Proof.
  intros mk. split; [|split; [|split; [|split]]].
  - apply process_text_map. intros line. unfold process_line.
    destruct (list_eq_dec ascii_dec (list_ascii_of_string "word") (list_ascii_of_string "line"))
      as [H|_]; [discriminate H|].
    destruct (list_eq_dec ascii_dec (list_ascii_of_string "word") (list_ascii_of_string "word"))
      as [_|H]; [|congruence].
    rewrite split_ws_words. reflexivity.
  - apply join_split_sep_aux.
  - intros line c Hl Hc. apply (split_sep_aux_pieces is_newline t [] (fun c H => match H with end)
                                  line Hl c Hc).
  - intros line w c _ Hw. unfold words_spec in Hw. apply filter_In in Hw as [Hw Hne].
    split; [intros ->; discriminate|].
    intros Hc. exact (split_sep_aux_pieces isspace line [] (fun c H => match H with end) w Hw c Hc).
  - vm_compute. reflexivity.
Qed.

(** C8. With [segmentation = "character"], each line of [process_text] is one
    single-character segment per character of the line that is in the
    alphabet, in text order; other characters are skipped, so a line has as
    many segments as it has supported characters. *)
Theorem process_text_character (alphabet : list ascii) (t : pystr) (ds : Z) (db : Q)
  (dc : pystr) (dw dsc : Q) :
  let out := process_text alphabet t (list_ascii_of_string "character") ds db dc dw dsc in
  out = map (fun line => map (fun c => TextSegment_init [c] ds db dc dw dsc)
                             (filter (in_alphabet alphabet) line)) (split_lines t)
  /\ length out = length (split_lines t)
  /\ (forall i line, nth_error (split_lines t) i = Some line ->
        exists segs, nth_error out i = Some segs
          /\ map text segs = map (fun c => [c]) (filter (in_alphabet alphabet) line)
          /\ length segs = length (filter (in_alphabet alphabet) line)).
Proof.
  intros out.
  assert (Hout : out = map (fun line => map (fun c => TextSegment_init [c] ds db dc dw dsc)
                                         (filter (in_alphabet alphabet) line)) (split_lines t)).
  { apply process_text_map. intros line. unfold process_line.
    destruct (list_eq_dec ascii_dec (list_ascii_of_string "character")
                (list_ascii_of_string "line")) as [H|_]; [discriminate H|].
    destruct (list_eq_dec ascii_dec (list_ascii_of_string "character")
                (list_ascii_of_string "word")) as [H|_]; [discriminate H|].
    destruct (list_eq_dec ascii_dec (list_ascii_of_string "character")
                (list_ascii_of_string "character")) as [_|H]; [reflexivity|congruence]. }
  split; [exact Hout|]. split; [rewrite Hout; apply length_map|].
  intros i line Hi. unfold pystr in Hi. rewrite Hout, nth_error_map, Hi. simpl.
  eexists. split; [reflexivity|]. split.
  - rewrite map_map. reflexivity.
  - apply length_map.
Qed.

(** ** C10: the backward-compatible [write] *)

Lemma pick_default {A : Type} (xs : option (list A)) (i : nat) (d : A) :
  absent_or_short xs i -> pick xs i d = d.
Proof.
  unfold absent_or_short, pick. destruct xs as [[|a l]|]; intros H; try reflexivity.
  replace (i <? length (a :: l))%nat with false by (symmetry; apply Nat.ltb_ge; exact H).
  reflexivity.
Qed.

Lemma pick_given {A : Type} (l : list A) (i : nat) (d : A) :
  (i < length l)%nat -> pick (Some l) i d = nth i l d.
Proof.
  intros H. unfold pick. destruct l as [|a l']; [simpl in H; lia|].
  replace (i <? length (a :: l'))%nat with true by (symmetry; apply Nat.ltb_lt; exact H).
  reflexivity.
Qed.

Lemma nth_error_combine_seq {A : Type} (l : list A) (k i : nat) :
  nth_error (combine (seq k (length l)) l) i = option_map (fun x => ((k + i)%nat, x)) (nth_error l i).
Proof.
  revert k i. induction l as [|a l IH]; intros k [|i]; simpl; try reflexivity.
  - rewrite Nat.add_0_r. reflexivity.
  - rewrite IH. f_equal. rewrite Nat.add_succ_r. reflexivity.
Qed.

(** C10. [write] makes one single-segment line per input line, in order; the
    segment of line [i] has that line as its text, no strokes yet, and for
    each optional per-line list that is absent or has no entry [i], the
    default: style 0, bias 0.5, color "black", width 2.0, scale 1.0 (and the
    entry [i] when there is one). *)
Theorem write_defaults (lines : list pystr) (biases : option (list Q))
  (styles : option (list Z)) (stroke_colors : option (list pystr))
  (stroke_widths : option (list Q)) (scales : option (list Q)) :
  let out := write lines biases styles stroke_colors stroke_widths scales in
  length out = length lines
  /\ (forall i line, nth_error lines i = Some line ->
      exists seg, nth_error out i = Some [seg]
        /\ text seg = line /\ strokes seg = None
        /\ style_id seg = pick styles i 0%Z
        /\ bias seg = pick biases i (1 # 2)
        /\ stroke_color seg = pick stroke_colors i (list_ascii_of_string "black")
        /\ stroke_width seg = pick stroke_widths i 2
        /\ scale seg = pick scales i 1
        /\ (absent_or_short styles i -> style_id seg = 0%Z)
        /\ (absent_or_short biases i -> bias seg = 1 # 2)
        /\ (absent_or_short stroke_colors i ->
              stroke_color seg = list_ascii_of_string "black")
        /\ (absent_or_short stroke_widths i -> stroke_width seg = 2)
        /\ (absent_or_short scales i -> scale seg = 1)
        /\ (forall l, styles = Some l -> (i < length l)%nat -> style_id seg = nth i l 0%Z)).
Proof.
  intros out. split.
  - unfold out, write. rewrite length_map, length_combine, length_seq. apply Nat.min_id.
  - intros i line Hi. unfold out, write.
    rewrite nth_error_map, nth_error_combine_seq. rewrite Hi. simpl.
    eexists. split; [reflexivity|]. simpl.
    repeat split; try reflexivity; try (intros H; apply pick_default; exact H).
    intros l -> Hl. apply pick_given. exact Hl.
Qed.

(** * Further properties of the service and its routes *)

(** ** Segmentation: shape of [process_text] *)


Lemma process_line_other (alphabet : list ascii) (seg : pystr) (ds : Z) (db : Q)
  (dc : pystr) (dw dsc : Q) (line : pystr) :
  seg <> list_ascii_of_string "line" -> seg <> list_ascii_of_string "word" ->
  seg <> list_ascii_of_string "character" ->
  process_line alphabet seg ds db dc dw dsc line = [].
Proof.
  intros H1 H2 H3. unfold process_line.
  destruct (list_eq_dec ascii_dec seg (list_ascii_of_string "line")); [congruence|].
  destruct (list_eq_dec ascii_dec seg (list_ascii_of_string "word")); [congruence|].
  destruct (list_eq_dec ascii_dec seg (list_ascii_of_string "character")); [congruence|].
  reflexivity.
Qed.


(** ** Style overrides of [generate_advanced_handwriting] *)

Lemma map_update_nth {A B : Type} (g : A -> B) (f : A -> A) (i : nat) (l : list A) :
  (forall x, g (f x) = g x) -> map g (update_nth i f l) = map g l.
Proof.
  intros H. revert i. induction l as [|x rest IH]; intros [|i]; simpl; try reflexivity.
  - rewrite H. reflexivity.
  - rewrite IH. reflexivity.
Qed.

Lemma length_update_nth {A : Type} (f : A -> A) (i : nat) (l : list A) :
  length (update_nth i f l) = length l.
Proof.
  revert i. induction l as [|x rest IH]; intros [|i]; simpl; try reflexivity.
  rewrite IH. reflexivity.
Qed.

Lemma nth_error_update_nth {A : Type} (f : A -> A) (i j : nat) (l : list A) :
  nth_error (update_nth i f l) j =
  if Nat.eqb i j then option_map f (nth_error l j) else nth_error l j.
Proof.
  revert i j. induction l as [|x rest IH]; intros [|i] [|j]; simpl;
    try reflexivity; try (destruct (_ =? _); reflexivity).
  apply IH.
Qed.

Lemma apply_override_map (segs : list (list TextSegment)) (ov : StyleOverride) :
  map (map text) (apply_override segs ov) = map (map text) segs
  /\ map (@length _) (apply_override segs ov) = map (@length _) segs.
Proof.
  unfold apply_override. destruct (ov_index ov) as [[li si]|]; [|split; reflexivity].
  destruct (_ && _); [|split; reflexivity]. split.
  - apply map_update_nth. intros line. apply map_update_nth. reflexivity.
  - apply map_update_nth. intros line. apply length_update_nth.
Qed.

Lemma apply_segment_styles_map (ovs : option (list StyleOverride))
  (segs : list (list TextSegment)) :
  map (map text) (apply_segment_styles ovs segs) = map (map text) segs
  /\ map (@length _) (apply_segment_styles ovs segs) = map (@length _) segs.
Proof.
  destruct ovs as [ovs|]; [|split; reflexivity]. simpl.
  revert segs. induction ovs as [|ov rest IH]; intros segs; [split; reflexivity|].
  simpl. destruct (IH (apply_override segs ov)) as [H1 H2].
  destruct (apply_override_map segs ov) as [H3 H4].
  split; congruence.
Qed.

Lemma validate_segment_text (alphabet : list ascii) (l s : nat) (seg1 seg2 : TextSegment) :
  text seg1 = text seg2 ->
  validate_segment alphabet l s seg1 = validate_segment alphabet l s seg2.
Proof. intros H. unfold validate_segment. rewrite H. reflexivity. Qed.

Lemma validate_line_texts (alphabet : list ascii) (l k : nat) (line1 line2 : list TextSegment) :
  map text line1 = map text line2 ->
  validate_line alphabet l k line1 = validate_line alphabet l k line2.
Proof.
  revert line2 k. induction line1 as [|s1 r1 IH]; intros [|s2 r2] k H; simpl in H;
    try discriminate; [reflexivity|].
  inversion H as [[H1 H2]]. simpl.
  rewrite (validate_segment_text alphabet l k s1 s2 H1), (IH r2 (S k) H2). reflexivity.
Qed.

Lemma validate_lines_texts (alphabet : list ascii) (k : nat) (segs1 segs2 : list (list TextSegment)) :
  map (map text) segs1 = map (map text) segs2 ->
  validate_lines alphabet k segs1 = validate_lines alphabet k segs2.
Proof.
  revert segs2 k. induction segs1 as [|l1 r1 IH]; intros [|l2 r2] k H; simpl in H;
    try discriminate; [reflexivity|].
  inversion H as [[H1 H2]]. simpl.
  rewrite (validate_line_texts alphabet k 0 l1 l2 H1), (IH r2 (S k) H2). reflexivity.
Qed.

(** An override without ["index"], or whose index is out of range (either
    coordinate negative or past the end), leaves the segments as they are;
    and a list of overrides never changes the number of lines nor the number
    of segments of any line. *)
Theorem apply_override_out_of_range (segs : list (list TextSegment))
  (ovs : option (list StyleOverride)) (ov : StyleOverride) :
  map (@length _) (apply_segment_styles ovs segs) = map (@length _) segs
  /\ (ov_index ov = None -> apply_override segs ov = segs)
  /\ (forall line_idx segment_idx,
        ov_index ov = Some (line_idx, segment_idx) ->
        (line_idx < 0 \/ Z.of_nat (length segs) <= line_idx \/ segment_idx < 0
         \/ (forall line, nth_error segs (Z.to_nat line_idx) = Some line ->
               Z.of_nat (length line) <= segment_idx))%Z ->
        apply_override segs ov = segs).
Proof.
  split; [apply apply_segment_styles_map|]. split.
  - intros H. unfold apply_override. rewrite H. reflexivity.
  - intros li si H Hout. unfold apply_override. rewrite H.
    destruct (0 <=? li)%Z eqn:E1; [|reflexivity].
    destruct (li <? Z.of_nat (length segs))%Z eqn:E2; [|reflexivity].
    destruct (0 <=? si)%Z eqn:E3; [|reflexivity].
    destruct (si <? Z.of_nat (length (nth (Z.to_nat li) segs [])))%Z eqn:E4; [|reflexivity].
    exfalso. apply Z.leb_le in E1. apply Z.ltb_lt in E2. apply Z.leb_le in E3.
    apply Z.ltb_lt in E4.
    destruct Hout as [H1|[H1|[H1|H1]]]; try lia.
    destruct (nth_error segs (Z.to_nat li)) as [line|] eqn:E.
    + apply nth_error_nth with (d := []) in E. rewrite E in E4. specialize (H1 line eq_refl). lia.
    + apply nth_error_None in E. lia.
Qed.

(** An override whose index is in range replaces, in the segment at that
    position, exactly the fields it names (text and strokes are never
    touched), and leaves every other position as it was. *)
Theorem apply_override_in_range (segs : list (list TextSegment)) (ov : StyleOverride)
  (l s : nat) (line : list TextSegment) (seg : TextSegment)
  (Hl : nth_error segs l = Some line) (Hs : nth_error line s = Some seg)
  (Hi : ov_index ov = Some (Z.of_nat l, Z.of_nat s)) :
  (exists line', nth_error (apply_override segs ov) l = Some line'
     /\ nth_error line' s = Some (apply_fields ov seg)
     /\ (forall s', s' <> s -> nth_error line' s' = nth_error line s'))
  /\ (forall l', l' <> l -> nth_error (apply_override segs ov) l' = nth_error segs l').
Proof.
  assert (Hin : apply_override segs ov =
                update_nth l (update_nth s (apply_fields ov)) segs).
  { unfold apply_override. rewrite Hi, !Nat2Z.id.
    apply nth_error_nth with (d := []) in Hl as Hn. rewrite Hn.
    assert (l < length segs)%nat by (apply nth_error_Some; congruence).
    assert (s < length line)%nat by (apply nth_error_Some; congruence).
    replace ((0 <=? Z.of_nat l)%Z && (Z.of_nat l <? Z.of_nat (length segs))%Z
             && (0 <=? Z.of_nat s)%Z && (Z.of_nat s <? Z.of_nat (length line))%Z) with true;
      [reflexivity|].
    symmetry. repeat (apply andb_true_iff; split); try apply Z.leb_le; try apply Z.ltb_lt; lia. }
  rewrite Hin. split.
  - rewrite nth_error_update_nth, Nat.eqb_refl, Hl. eexists. split; [reflexivity|].
    split.
    + rewrite nth_error_update_nth, Nat.eqb_refl, Hs. reflexivity.
    + intros s' Hne. rewrite nth_error_update_nth.
      destruct (Nat.eqb s s') eqn:E; [apply Nat.eqb_eq in E; congruence|reflexivity].
  - intros l' Hne. rewrite nth_error_update_nth.
    destruct (Nat.eqb l l') eqn:E; [apply Nat.eqb_eq in E; congruence|reflexivity].
Qed.

Lemma apply_override_in_range_witness :
  let seg := TextSegment_init (list_ascii_of_string "hi") 0 (1 # 2)
               (list_ascii_of_string "black") 2 1 in
  let ov := mkStyleOverride (Some (0%Z, 0%Z)) (Some 3%Z) None
              (Some (list_ascii_of_string "red")) None None in
  ((exists line', nth_error (apply_override [[seg]] ov) 0 = Some line'
     /\ nth_error line' 0 = Some (apply_fields ov seg)
     /\ (forall s', s' <> 0%nat -> nth_error line' s' = nth_error [seg] s'))
   /\ (forall l', l' <> 0%nat -> nth_error (apply_override [[seg]] ov) l' = nth_error [[seg]] l')).
Proof.
  intros seg ov. exact (apply_override_in_range [[seg]] ov 0 0 [seg] seg eq_refl eq_refl eq_refl).
Defined.

(** Style overrides change neither any segment's text nor the outcome of
    [_validate_segments]: the advanced route validates exactly what
    [process_text] produced. *)
Theorem apply_segment_styles_validation (alphabet : list ascii)
  (ovs : option (list StyleOverride)) (segs : list (list TextSegment)) :
  map (map text) (apply_segment_styles ovs segs) = map (map text) segs
  /\ validate_segments alphabet (apply_segment_styles ovs segs)
     = validate_segments alphabet segs.
Proof.
  destruct (apply_segment_styles_map ovs segs) as [H _]. split; [exact H|].
  apply validate_lines_texts. exact H.
Qed.

(** In "character" mode, whatever the overrides, validation never fails:
    every segment is one supported character. *)
Theorem character_mode_always_valid (alphabet : list ascii) (t : pystr) (ds : Z) (db : Q)
  (dc : pystr) (dw dsc : Q) (ovs : option (list StyleOverride)) :
  validate_segments alphabet
    (apply_segment_styles ovs
       (process_text alphabet t (list_ascii_of_string "character") ds db dc dw dsc))
  = Ok tt.
Proof.
  destruct (apply_segment_styles_map ovs
              (process_text alphabet t (list_ascii_of_string "character") ds db dc dw dsc))
    as [H _].
  unfold validate_segments. rewrite (validate_lines_texts alphabet 0 _ _ H).
  apply validate_lines_ok. intros l s line seg Hl Hs.
  assert (Hout : process_text alphabet t (list_ascii_of_string "character") ds db dc dw dsc
                 = map (fun line => map (fun c => TextSegment_init [c] ds db dc dw dsc)
                                      (filter (in_alphabet alphabet) line)) (split_lines t)).
  { apply process_text_map. intros ln. reflexivity. }
  rewrite Hout, nth_error_map in Hl.
  destruct (nth_error _ l) as [ln|]; simpl in Hl; [|discriminate].
  inversion Hl; subst line. rewrite nth_error_map in Hs.
  destruct (nth_error _ s) as [c|] eqn:Ec; simpl in Hs; [|discriminate].
  simpl in Hs. inversion Hs; subst seg.
  apply nth_error_In, filter_In in Ec as [_ Hc].
  unfold segment_valid. simpl. rewrite Hc. reflexivity.
Qed.

(** ** Alignment in [_calculate_segment_metrics] *)

Lemma calculate_segment_metrics_start (segs : list TextSegment) (W : Q) (cfg : LayoutConfig) :
  let sp := 10 * word_spacing cfg in
  exists t, t == total_natural_width_spec segs sp
    /\ map x_position (calculate_segment_metrics segs W cfg)
       = positions_spec (map est_width_spec segs) (start_x cfg W t) sp
    /\ map width (calculate_segment_metrics segs W cfg) = map est_width_spec segs.
Proof.
  intros sp. unfold calculate_segment_metrics. fold sp.
  pose proof (estimate_loop_metrics segs 0 (length segs) sp 0) as Hm.
  pose proof (estimate_loop_total segs 0 (length segs) sp 0 eq_refl) as Ht.
  destruct (estimate_loop segs 0 (length segs) sp 0) as [ms0 t] eqn:E.
  simpl in Hm, Ht. subst ms0.
  destruct (position_loop_spec
              (map (fun s => mkMetrics (est_width_spec s) 0 (est_width_spec s)) segs)
              0 _ sp (start_x cfg W t) eq_refl) as (H1 & _ & H3).
  rewrite !map_map in *. simpl in *.
  exists t. split; [rewrite Ht, Qplus_0_l; reflexivity|]. split; assumption.
Qed.

Lemma positions_spec_last (ws : list Q) (x sp : Q) :
  ws <> [] ->
  last (positions_spec ws x sp) 0 + last ws 0
  == x + fold_right Qplus 0 ws + Q_of_nat (length ws - 1) * sp.
Proof.
  revert x. induction ws as [|w rest IH]; intros x Hne; [congruence|].
  destruct rest as [|w' rest'].
  - simpl. unfold Q_of_nat. simpl. ring.
  - change (last (positions_spec (w' :: rest') (x + w + sp) sp) 0 + last (w' :: rest') 0
            == x + (w + fold_right Qplus 0 (w' :: rest'))
               + Q_of_nat (length (w' :: rest')) * sp).
    rewrite (IH (x + w + sp) ltac:(discriminate)).
    simpl length. rewrite Q_of_nat_succ. replace (S (length rest') - 1)%nat with (length rest') by lia.
    ring.
Qed.

Lemma positions_spec_hd (ws : list Q) (x sp : Q) :
  ws <> [] -> hd 0 (positions_spec ws x sp) = x.
Proof. destruct ws; [congruence|reflexivity]. Qed.

(** With "right" alignment the last segment of a non-empty line ends exactly
    at the usable width [W]; with "center" the space left of the first
    segment equals the space right of the last one; any alignment string
    other than "center" and "right" (a typo, "justify", "") lays the line
    out exactly as "left". *)
Theorem calculate_segment_metrics_alignment (segs : list TextSegment) (W : Q)
  (cfg : LayoutConfig) :
  let ms := calculate_segment_metrics segs W cfg in
  let right_end := last (map x_position ms) 0 + last (map width ms) 0 in
  (segs <> [] -> alignment cfg = list_ascii_of_string "right" -> right_end == W)
  /\ (segs <> [] -> alignment cfg = list_ascii_of_string "center" ->
      hd 0 (map x_position ms) == W - right_end)
  /\ (forall a, a <> list_ascii_of_string "center" -> a <> list_ascii_of_string "right" ->
      calculate_segment_metrics segs W
        (mkLayoutConfig (line_spacing cfg) (word_spacing cfg) (char_spacing cfg) a
           (max_width cfg))
      = calculate_segment_metrics segs W
        (mkLayoutConfig (line_spacing cfg) (word_spacing cfg) (char_spacing cfg)
           (list_ascii_of_string "left") (max_width cfg))).
Proof.
  intros ms right_end.
  destruct (calculate_segment_metrics_start segs W cfg) as (t & Ht & Hx & Hw).
  assert (Hend : segs <> [] -> right_end == start_x cfg W t + t).
  { intros Hne. unfold right_end, ms. rewrite Hx, Hw.
    assert (Hne' : map est_width_spec segs <> []) by (destruct segs; [congruence|discriminate]).
    rewrite (positions_spec_last _ _ _ Hne'). remember (start_x cfg W t) as x0.
    rewrite Ht. unfold total_natural_width_spec.
    rewrite length_map. ring. }
  split; [|split].
  - intros Hne Ha. rewrite (Hend Hne). unfold start_x, is_str. rewrite Ha. simpl. ring.
  - intros Hne Ha. rewrite (Hend Hne). unfold ms. rewrite Hx.
    assert (Hne' : map est_width_spec segs <> []) by (destruct segs; [congruence|discriminate]).
    rewrite (positions_spec_hd _ _ _ Hne'). unfold start_x, is_str. rewrite Ha. simpl. field.
  - intros a Hc Hr. unfold calculate_segment_metrics, start_x, is_str. simpl alignment.
    destruct (list_eq_dec ascii_dec a (list_ascii_of_string "center")); [contradiction|].
    destruct (list_eq_dec ascii_dec a (list_ascii_of_string "right")); [contradiction|].
    reflexivity.
Qed.

(** ** [_sample_segments] and [write_segments] *)

Lemma combine_app_l {A B : Type} (l m : list A) (r : list B) :
  (length l <= length r)%nat ->
  combine (l ++ m) r = combine l r ++ combine m (skipn (length l) r).
Proof.
  revert r. induction l as [|a l IH]; intros r Hl; [reflexivity|].
  destruct r as [|b r]; simpl in Hl; [lia|]. simpl. rewrite IH by lia. reflexivity.
Qed.

Lemma zip_strokes_shape (segs : list TextSegment) (sts : list (list row)) :
  (length segs <= length sts)%nat ->
  length (zip_strokes segs sts) = length segs
  /\ map text (zip_strokes segs sts) = map text segs.
Proof.
  revert sts. induction segs as [|s rest IH]; intros [|st sts] H; simpl in H;
    try lia; try (split; reflexivity).
  destruct (IH sts ltac:(lia)) as [H1 H2].
  change (zip_strokes (s :: rest) (st :: sts)) with (with_strokes s st :: zip_strokes rest sts).
  cbn [length map]. rewrite H1, H2. split; reflexivity.
Qed.

Lemma attach_line_some (l : list TextSegment) (sts : list (list row)) :
  (length l <= length sts)%nat ->
  attach_line l sts = Some (zip_strokes l sts, skipn (length l) sts).
Proof.
  revert sts. induction l as [|s rest IH]; intros [|st sts] H; simpl in H;
    try lia; try reflexivity.
  simpl. rewrite IH by lia. reflexivity.
Qed.

Lemma attach_line_none (l : list TextSegment) (sts : list (list row)) :
  (length sts < length l)%nat -> attach_line l sts = None.
Proof.
  revert sts. induction l as [|s rest IH]; intros [|st sts] H; simpl in H;
    try lia; try reflexivity.
  simpl. rewrite IH by lia. reflexivity.
Qed.

Lemma attach_some (segs : list (list TextSegment)) (sts : list (list row)) :
  (length (concat segs) <= length sts)%nat ->
  exists segs', attach segs sts = Some segs'
    /\ map (map text) segs' = map (map text) segs
    /\ map (@length _) segs' = map (@length _) segs
    /\ concat segs' = zip_strokes (concat segs) sts.
Proof.
  revert sts. induction segs as [|l rest IH]; intros sts H.
  - exists []. repeat split.
  - simpl in H. rewrite length_app in H. simpl.
    rewrite attach_line_some by lia.
    destruct (IH (skipn (length l) sts)) as (rest' & Ha & H1 & H2 & H3);
      [rewrite length_skipn; lia|].
    rewrite Ha. exists (zip_strokes l sts :: rest').
    destruct (zip_strokes_shape l sts ltac:(lia)) as [Hl Ht].
    split; [reflexivity|]. simpl. rewrite H1, H2, H3, Hl, Ht.
    split; [reflexivity|]. split; [reflexivity|].
    unfold zip_strokes. rewrite combine_app_l by lia. rewrite map_app. reflexivity.
Qed.

Lemma attach_none (segs : list (list TextSegment)) (sts : list (list row)) :
  (length sts < length (concat segs))%nat -> attach segs sts = None.
Proof.
  revert sts. induction segs as [|l rest IH]; intros sts H; simpl in H; [lia|].
  rewrite length_app in H. simpl.
  destruct (Nat.le_gt_cases (length l) (length sts)) as [Hle|Hgt].
  - rewrite attach_line_some by exact Hle. rewrite IH; [reflexivity|].
    rewrite length_skipn. lia.
  - rewrite attach_line_none by exact Hgt. reflexivity.
Qed.

(** [_sample_segments] calls the model at most once: not at all when there
    is no segment (the segments come back unchanged), else once with the
    texts of all segments in reading order. When the model returns at least
    one stroke array per segment, every segment keeps its text and its
    place, and the [i]-th segment in reading order gets the [i]-th array;
    when it returns fewer, the call fails with an [IndexError]. *)
Theorem sample_segments_spec (sample : list pystr -> list Q -> list Z -> list (list row))
  (segs : list (list TextSegment)) :
  let all_segments := concat segs in
  let sts := sample (map text all_segments) (map bias all_segments)
               (map style_id all_segments) in
  (all_segments = [] -> sample_segments sample segs = ([], inr segs))
  /\ (all_segments <> [] -> fst (sample_segments sample segs) = [map text all_segments])
  /\ ((length all_segments <= length sts)%nat ->
      exists segs', snd (sample_segments sample segs) = inr segs'
        /\ map (map text) segs' = map (map text) segs
        /\ map (@length _) segs' = map (@length _) segs
        /\ concat segs' = zip_strokes all_segments sts)
  /\ ((length sts < length all_segments)%nat ->
      snd (sample_segments sample segs) = inl ExnIndex).
Proof.
  intros all_segments sts.
  assert (Hs : sample_segments sample segs =
               match all_segments with
               | [] => ([], inr segs)
               | _ => ([map text all_segments],
                       match attach segs sts with
                       | Some s => inr s
                       | None => inl ExnIndex
                       end)
               end) by reflexivity.
  assert (Ha : concat segs = all_segments) by reflexivity.
  rewrite Hs. clearbody sts all_segments.
  destruct all_segments as [|s0 rest0].
  - split; [reflexivity|]. split; [congruence|]. split.
    + intros _. exists segs. repeat split. exact Ha.
    + simpl. lia.
  - split; [discriminate|]. split; [reflexivity|]. split.
    + intros H. rewrite <- Ha in H. destruct (attach_some segs sts H) as (segs' & Hat & H1 & H2 & H3).
      exists segs'. simpl. rewrite Hat. rewrite <- Ha. repeat split; assumption.
    + intros H. rewrite <- Ha in H. simpl. rewrite attach_none by exact H. reflexivity.
Qed.

Lemma sample_segments_unfold (sample : list pystr -> list Q -> list Z -> list (list row))
  (segs : list (list TextSegment)) :
  sample_segments sample segs =
  match concat segs with
  | [] => ([], inr segs)
  | _ => ([map text (concat segs)],
          match attach segs (sample (map text (concat segs)) (map bias (concat segs))
                               (map style_id (concat segs))) with
          | Some s => inr s
          | None => inl ExnIndex
          end)
  end.
Proof. reflexivity. Qed.


Lemma draw_lines_all_empty (lh usable_width left_margin : Q) (cfg : LayoutConfig)
  (lines : list (list TextSegment)) (y : Q) :
  (forall l, In l lines -> l = []) ->
  draw_lines lh usable_width left_margin cfg lines y = [].
Proof.
  revert y. induction lines as [|l rest IH]; intros y H; [reflexivity|].
  rewrite (H l (or_introl eq_refl)). simpl. apply IH. intros l' Hl'. apply H. right. exact Hl'.
Qed.

(** A segmentation mode other than "line", "word" and "character" is not
    rejected: [write_segments] gets only empty lines, passes validation,
    never calls the model, and returns a document with nothing drawn. *)
Theorem write_segments_unknown_mode (alphabet : list ascii)
  (sample : list pystr -> list Q -> list Z -> list (list row))
  (t mode : pystr) (ds : Z) (db : Q) (dc : pystr) (dw dsc : Q)
  (cfg : option LayoutConfig) (page_dimensions : option (Q * Q))
  (margins : option (Q * Q * Q * Q))
  (H1 : mode <> list_ascii_of_string "line") (H2 : mode <> list_ascii_of_string "word")
  (H3 : mode <> list_ascii_of_string "character") :
  exists doc,
    write_segments alphabet sample (process_text alphabet t mode ds db dc dw dsc)
      cfg page_dimensions margins = ([], inr doc)
    /\ draw_calls doc = [].
Proof.
  rewrite (process_text_map alphabet t mode ds db dc dw dsc (fun _ => []))
    by (intros line; apply process_line_other; assumption).
  set (segs := map (fun _ : pystr => @nil TextSegment) (split_lines t)).
  assert (Hempty : forall l, In l segs -> l = []).
  { intros l Hl. unfold segs in Hl. apply in_map_iff in Hl as (x & <- & _). reflexivity. }
  assert (Hv : validate_segments alphabet segs = Ok tt).
  { apply validate_lines_ok. intros l s line seg Hl Hs.
    rewrite (Hempty line (nth_error_In _ _ Hl)) in Hs. destruct s; discriminate. }
  assert (Hc : concat segs = []).
  { clear Hv. induction segs as [|l rest IH]; [reflexivity|].
    rewrite (Hempty l (or_introl eq_refl)). apply IH. intros l' Hl'. apply Hempty. right. exact Hl'. }
  unfold write_segments. rewrite Hv, sample_segments_unfold, Hc.
  eexists. split; [reflexivity|]. unfold draw_segments.
  destruct page_dimensions as [[pw ph]|]; destruct margins as [[[[lm tm] rm] bm]|];
    apply draw_lines_all_empty; exact Hempty.
Qed.

Lemma write_segments_unknown_mode_witness :
  exists doc,
    write_segments [] (fun _ _ _ => []) (process_text [] (list_ascii_of_string "ab")
      (list_ascii_of_string "sentence") 0 (1 # 2) (list_ascii_of_string "black") 2 1)
      None None None = ([], inr doc)
    /\ draw_calls doc = [].
Proof.
  apply (write_segments_unknown_mode [] (fun _ _ _ => []) (list_ascii_of_string "ab")
           (list_ascii_of_string "sentence") 0 (1 # 2) (list_ascii_of_string "black") 2 1
           None None None); discriminate.
Defined.

(** ** The SVG path of [_draw_segment] *)

Lemma path_cmds_points (e0 : Q) (pts : list row) :
  map (fun '(_, x, y) => (x, y)) (path_cmds e0 pts) = xy_of pts.
Proof.
  revert e0. induction pts as [|[[x y] e] rest IH]; intros e0; [reflexivity|].
  simpl. rewrite IH. reflexivity.
Qed.

Lemma path_cmds_nth (e0 : Q) (pts : list row) (i : nat) (x y e x' y' e' : Q) :
  nth_error pts i = Some (x, y, e) -> nth_error pts (S i) = Some (x', y', e') ->
  nth_error (path_cmds e0 pts) (S i) = Some (Qeq_bool e 1, x', y').
Proof.
  revert e0 i. induction pts as [|[[a b] c] rest IH]; intros e0 i H H'; [destruct i; discriminate|].
  destruct i as [|i].
  - simpl in H. inversion H; subst. destruct rest as [|[[a' b'] c'] rest']; [discriminate|].
    simpl in H'. inversion H'; subst. reflexivity.
  - simpl. apply (IH c i H H').
Qed.

(** The path starts with two moves to the first point ("M x0,y0 M x0,y0"),
    then has one command per point, through all the points in order; the
    command for point [i + 1] is a move (pen up) exactly when point [i] has
    [eos == 1], a line-to otherwise. No point is dropped or added. *)
Theorem svg_path_commands (pts : list row) :
  (pts = [] -> svg_path pts = [])
  /\ (forall x y e rest, pts = (x, y, e) :: rest ->
        exists cmds, svg_path pts = (true, x, y) :: (true, x, y) :: cmds)
  /\ map (fun '(_, x, y) => (x, y)) (tl (svg_path pts)) = xy_of pts
  /\ (forall i x y e x' y' e', nth_error pts i = Some (x, y, e) ->
        nth_error pts (S i) = Some (x', y', e') ->
        nth_error (svg_path pts) (S (S i)) = Some (Qeq_bool e 1, x', y')).
Proof.
  split; [intros ->; reflexivity|]. split.
  - intros x y e rest ->. simpl. eexists. reflexivity.
  - destruct pts as [|[[x0 y0] e0] rest]; [split; [reflexivity|intros i; destruct i; discriminate]|].
    split.
    + apply path_cmds_points.
    + intros i x y e x' y' e' H H'.
      change (nth_error (path_cmds 1 ((x0, y0, e0) :: rest)) (S i) = Some (Qeq_bool e 1, x', y')).
      exact (path_cmds_nth 1 _ i x y e x' y' e' H H').
Qed.

(** ** Which segments [_draw_segments] hands to [_draw_segment] *)

Lemma draw_zip_calls (segs : list TextSegment) (ms : list Metrics) (lm y : Q) :
  length ms = length segs ->
  map call_segment (draw_zip segs ms lm y)
  = filter (fun s => match strokes s, text s with
                     | None, _ | _, [] => false
                     | Some _, _ => true
                     end) segs
  /\ forall c, In c (draw_zip segs ms lm y) -> call_y c = y.
Proof.
  revert ms. induction segs as [|s rest IH]; intros [|m ms] H; simpl in H; try lia;
    [split; [reflexivity|intros c []]|].
  destruct (IH ms ltac:(lia)) as [H1 H2]. simpl.
  destruct (strokes s) as [st|], (text s) as [|a t]; simpl;
    (split; [rewrite ?H1; reflexivity|]); try exact H2.
  intros c [<-|Hc]; [reflexivity|exact (H2 c Hc)].
Qed.

(** In each line, [_draw_segments] calls [_draw_segment] exactly for the
    segments that have strokes and a non-empty text, in order, all at the
    line's [y]. A segment whose strokes are an empty array is not skipped:
    [_draw_segment] then fails (numpy's [min] of an empty array), whatever
    [denoise] and [align] are. *)
Theorem draw_line_segments (usable_width left_margin : Q) (cfg : LayoutConfig)
  (line_segments : list TextSegment) (y : Q) :
  map call_segment (draw_line usable_width left_margin cfg line_segments y)
  = filter (fun s => match strokes s, text s with
                     | None, _ | _, [] => false
                     | Some _, _ => true
                     end) line_segments
  /\ (forall c, In c (draw_line usable_width left_margin cfg line_segments y) -> call_y c = y)
  /\ (forall denoise align segment x, strokes segment = Some [] ->
        draw_segment denoise align segment x y = None).
Proof.
  assert (Hlen : length (calculate_segment_metrics line_segments usable_width cfg)
                 = length line_segments).
  { destruct (calculate_segment_metrics_start line_segments usable_width cfg)
      as (t & _ & _ & Hw).
    rewrite <- (length_map width), Hw, length_map. reflexivity. }
  destruct (draw_zip_calls line_segments _ left_margin y Hlen) as [H1 H2].
  split; [exact H1|]. split; [exact H2|].
  intros denoise align segment x Hs. unfold draw_segment. rewrite Hs. simpl.
  destruct (align []); reflexivity.
Qed.

(** ** Validation of [Hand.write]'s segments *)

(** [write] hands [write_segments] valid segments exactly when every input
    line has at most 75 characters, all supported; an empty line is valid. *)
Theorem write_valid_iff (alphabet : list ascii) (lines : list pystr) (biases : option (list Q))
  (styles : option (list Z)) (stroke_colors : option (list pystr))
  (stroke_widths : option (list Q)) (scales : option (list Q)) :
  validate_segments alphabet (write lines biases styles stroke_colors stroke_widths scales)
  = Ok tt
  <-> (forall line, In line lines ->
        (length line <= 75)%nat /\ forallb (in_alphabet alphabet) line = true).
Proof.
  unfold validate_segments. rewrite validate_lines_ok. unfold write. split.
  - intros H line Hin. apply In_nth_error in Hin as (i & Hi).
    specialize (H i 0%nat).
    rewrite nth_error_map, nth_error_combine_seq in H. rewrite Hi in H. simpl in H.
    specialize (H _ _ eq_refl eq_refl). unfold segment_valid in H. simpl in H.
    apply andb_true_iff in H as [Ha Hb]. split; [apply Nat.leb_le; exact Ha|exact Hb].
  - intros H l s line seg Hl Hs.
    rewrite nth_error_map, nth_error_combine_seq in Hl.
    destruct (nth_error lines l) as [ln|] eqn:E; simpl in Hl; [|discriminate].
    inversion Hl; subst line. destruct s as [|[|s]]; simpl in Hs; try discriminate.
    inversion Hs; subst seg. destruct (H ln (nth_error_In _ _ E)) as [Ha Hb].
    unfold segment_valid. simpl. rewrite Hb, andb_true_r. apply Nat.leb_le. exact Ha.
Qed.

(** ** Word wrapping of [generate_a4_page] *)

Lemma split_ws_aux_word (w s cur : pystr) :
  (forall c, In c w -> isspace c = false) ->
  split_ws_aux (w ++ s) cur = split_ws_aux s (cur ++ w).
Proof.
  revert cur. induction w as [|a w IH]; intros cur Hw; simpl.
  - rewrite app_nil_r. reflexivity.
  - rewrite (Hw a (or_introl eq_refl)). rewrite IH by (intros c Hc; apply Hw; right; exact Hc).
    rewrite <- app_assoc. reflexivity.
Qed.

Lemma join_snoc (sep : pystr) (cs : list pystr) (w : pystr) :
  join sep (cs ++ [w]) = match cs with [] => w | _ => join sep cs ++ sep ++ w end.
Proof.
  induction cs as [|c r IH]; [reflexivity|].
  destruct r as [|c' r']; [reflexivity|].
  change (join sep (@app pystr (c :: c' :: r') [w]))
    with (c ++ sep ++ join sep (@app pystr (c' :: r') [w])).
  rewrite IH. change (join sep (c :: c' :: r')) with (c ++ sep ++ join sep (c' :: r')).
  rewrite !app_assoc. reflexivity.
Qed.

Lemma join_nonempty (sep : pystr) (c : pystr) (r : list pystr) :
  c <> [] -> join sep (c :: r) <> [].
Proof.
  intros Hc. destruct r as [|c' r']; [exact Hc|].
  change (join sep (c :: c' :: r')) with (c ++ sep ++ join sep (c' :: r')).
  destruct c; [congruence|discriminate].
Qed.

Lemma split_ws_join (ws : list pystr) :
  Forall (fun w => w <> [] /\ forall c, In c w -> isspace c = false) ws ->
  split_ws (join [" "%char] ws) = ws.
Proof.
  unfold split_ws. induction ws as [|w rest IH]; intros H; [reflexivity|].
  inversion H as [|? ? [Hw Hs] Hrest]; subst.
  destruct rest as [|w' rest'].
  - simpl. rewrite <- (app_nil_r w), split_ws_aux_word by exact Hs. simpl.
    destruct w; [congruence|]. rewrite app_nil_r. reflexivity.
  - change (join [" "%char] (w :: w' :: rest')) with (w ++ [" "%char] ++ join [" "%char] (w' :: rest')).
    rewrite split_ws_aux_word by exact Hs.
    set (J := join [" "%char] (w' :: rest')) in *. simpl.
    destruct w; [congruence|]. rewrite IH by exact Hrest. reflexivity.
Qed.

Lemma split_ws_blank (s : pystr) :
  forallb isspace s = true -> split_ws_aux s [] = [].
Proof.
  induction s as [|c r IH]; intros H; [reflexivity|].
  simpl in H. apply andb_true_iff in H as [Hc Hr]. simpl. rewrite Hc. exact (IH Hr).
Qed.

Lemma split_ws_good (s : pystr) :
  Forall (fun w => w <> [] /\ forall c, In c w -> isspace c = false) (split_ws s).
Proof.
  apply Forall_forall. intros w Hw. rewrite split_ws_words in Hw. unfold words_spec in Hw.
  apply filter_In in Hw as [Hin Hne]. split.
  - destruct w; [discriminate|congruence].
  - apply (split_sep_aux_pieces isspace s [] (fun c H => match H with end) w Hin).
Qed.

Lemma split_ws_aux_nonempty (s cur : pystr) :
  (cur <> [] \/ forallb isspace s = false) -> split_ws_aux s cur <> [].
Proof.
  revert cur. induction s as [|c r IH]; intros cur H; simpl in *.
  - destruct H as [H|H]; [destruct cur; [congruence|discriminate]|discriminate].
  - destruct (isspace c) eqn:Hc.
    + destruct cur as [|a cur]; [|discriminate]. apply IH.
      destruct H as [H|H]; [congruence|right; exact H].
    + apply IH. left. destruct cur; discriminate.
Qed.

Lemma wrap_words_words (cpl : nat) (ws cs : list pystr) :
  Forall (fun w => w <> [] /\ forall c, In c w -> isspace c = false) ws ->
  Forall (fun w => w <> [] /\ forall c, In c w -> isspace c = false) cs ->
  flat_map split_ws (wrap_words cpl ws (join [" "%char] cs)) = cs ++ ws.
Proof.
  revert cs. induction ws as [|w rest IH]; intros cs Hws Hcs.
  - simpl. destruct cs as [|c r]; [reflexivity|].
    inversion Hcs as [|? ? [Hc _] _]; subst.
    pose proof (join_nonempty [" "%char] c r Hc) as Hne.
    destruct (join [" "%char] (c :: r)) as [|a l] eqn:E; [congruence|].
    simpl. rewrite <- E, split_ws_join by exact Hcs. rewrite !app_nil_r. reflexivity.
  - inversion Hws as [|? ? Hw Hrest]; subst. simpl.
    destruct (_ <=? cpl)%nat.
    + assert (Hj : match join [" "%char] cs with
                   | [] => w
                   | _ => join [" "%char] cs ++ " "%char :: w
                   end = join [" "%char] (cs ++ [w])).
      { rewrite join_snoc. destruct cs as [|c r]; [reflexivity|].
        inversion Hcs as [|? ? [Hc _] _]; subst.
        pose proof (join_nonempty [" "%char] c r Hc) as Hne.
        destruct (join [" "%char] (c :: r)) as [|a l] eqn:E; [congruence|reflexivity]. }
      rewrite Hj, IH; [rewrite <- app_assoc; reflexivity|exact Hrest|].
      apply Forall_app. split; [exact Hcs|constructor; [exact Hw|constructor]].
    + specialize (IH [w] Hrest ltac:(constructor; [exact Hw|constructor])). simpl in IH.
      destruct cs as [|c r]; [exact IH|].
      inversion Hcs as [|? ? [Hc _] _]; subst.
      pose proof (join_nonempty [" "%char] c r Hc) as Hne.
      destruct (join [" "%char] (c :: r)) as [|a l] eqn:E; [congruence|].
      simpl. rewrite IH, <- E, split_ws_join by exact Hcs. reflexivity.
Qed.

Lemma wrap_words_lines (cpl : nat) (ws : list pystr) (cur : pystr) :
  Forall (fun w => w <> [] /\ forall c, In c w -> isspace c = false) ws ->
  ((length cur <= cpl)%nat \/ (forall c, In c cur -> isspace c = false)) ->
  forall l, In l (wrap_words cpl ws cur) ->
    l <> [] /\ ((length l <= cpl)%nat \/ (forall c, In c l -> isspace c = false)).
Proof.
  revert cur. induction ws as [|w rest IH]; intros cur Hws Hcur l Hl.
  - simpl in Hl. destruct cur as [|a cur']; [destruct Hl|].
    destruct Hl as [<-|[]]. split; [discriminate|exact Hcur].
  - inversion Hws as [|? ? [Hw Hs] Hrest]; subst. simpl in Hl.
    destruct (length cur + length w + 1 <=? cpl)%nat eqn:Hfit.
    + apply Nat.leb_le in Hfit. refine (IH _ Hrest _ l Hl). left.
      destruct cur as [|a cur']; [simpl in Hfit; lia|].
      rewrite length_app. simpl. simpl in Hfit. lia.
    + destruct cur as [|a cur'].
      * exact (IH w Hrest (or_intror Hs) l Hl).
      * destruct Hl as [<-|Hl]; [split; [discriminate|exact Hcur]|].
        exact (IH w Hrest (or_intror Hs) l Hl).
Qed.

Lemma chars_per_line_value : chars_per_line = 64%nat.
Proof. reflexivity. Qed.

(** [generate_a4_page] keeps a blank paragraph as one empty line and turns
    any other paragraph into at least one line, none of them empty. Every
    line it produces either has at most [chars_per_line = 64] characters or
    is a single word with no whitespace (a word longer than the line is put
    on a line of its own, never cut). *)
Theorem a4_lines_shape (t p : pystr) :
  (forallb isspace p = true -> a4_paragraph p = [[]])
  /\ (forallb isspace p = false ->
      a4_paragraph p <> [] /\ forall l, In l (a4_paragraph p) -> l <> [])
  /\ (forall l, In l (a4_lines t) ->
        (length l <= 64)%nat \/ (forall c, In c l -> isspace c = false)).
Proof.
  split; [|split].
  - intros H. unfold a4_paragraph. rewrite H. reflexivity.
  - intros H. unfold a4_paragraph. rewrite H. split.
    + intros Hnil.
      pose proof (wrap_words_words chars_per_line (split_ws p) [] (split_ws_good p)
                    (Forall_nil _)) as Hw.
      simpl in Hw. rewrite Hnil in Hw. simpl in Hw.
      exact (split_ws_aux_nonempty p [] (or_intror H) (eq_sym Hw)).
    + intros l Hl.
      exact (proj1 (wrap_words_lines chars_per_line (split_ws p) [] (split_ws_good p)
                      (or_introl (Nat.le_0_l _)) l Hl)).
  - intros l Hl. unfold a4_lines in Hl. apply in_flat_map in Hl as (p' & _ & Hl).
    unfold a4_paragraph in Hl. rewrite <- chars_per_line_value.
    destruct (forallb isspace p').
    + destruct Hl as [<-|[]]. left. apply Nat.le_0_l.
    + exact (proj2 (wrap_words_lines chars_per_line (split_ws p') [] (split_ws_good p')
                      (or_introl (Nat.le_0_l _)) l Hl)).
Qed.

(** Wrapping never loses, adds, reorders or cuts a word: the words of the
    A4 lines, in order, are the words of the text. *)
Theorem a4_lines_words (t : pystr) :
  flat_map split_ws (a4_lines t) = flat_map split_ws (split_lines t).
Proof.
  unfold a4_lines. induction (split_lines t) as [|p rest IH]; [reflexivity|].
  simpl. rewrite flat_map_app, IH. f_equal.
  unfold a4_paragraph. destruct (forallb isspace p) eqn:H.
  - simpl. unfold split_ws. rewrite split_ws_blank by exact H. reflexivity.
  - exact (wrap_words_words chars_per_line (split_ws p) [] (split_ws_good p) (Forall_nil _)).
Qed.

(** ** Page layout of [generate_a4_page] *)

(** The A4 page is always 794 x 1123, however many lines the text gives:
    line [i] is drawn at [y = 100 + 90 * (i + 0.75)] (top margin 100, line
    height 60 * 1.5), each line with a usable width of 644 from x = 75.
    There is no pagination: from the twelfth line on, lines are placed
    below the bottom edge of the page. *)
Theorem a4_document_layout (segs : list (list TextSegment)) :
  let doc := a4_document segs in
  let cfg := mkLayoutConfig (3 # 2) 1 1 (list_ascii_of_string "left") (Some (794 - 75 - 75)) in
  view_width doc = a4_page_width /\ view_height doc = a4_page_height
  /\ exists ys, length ys = length segs
     /\ (forall i y, nth_error ys i = Some y -> y == 100 + 90 * (Q_of_nat i + (3 # 4)))
     /\ (forall i y, nth_error ys i = Some y -> (11 <= i)%nat -> a4_page_height < y)
     /\ draw_calls doc
        = concat (map (fun '(l, y) => draw_line (a4_page_width - 75 - 75) 75 cfg l y)
                      (combine segs ys)).
Proof.
  intros doc cfg. split; [reflexivity|]. split; [reflexivity|].
  destruct (draw_lines_positions (base_line_height * (3 # 2)) (a4_page_width - 75 - 75) 75 100
              cfg segs 0 (100 + base_line_height * (3 # 2) * (3 # 4)))
    as (ys & H1 & H2 & H3).
  { unfold Q_of_nat. simpl. ring. }
  assert (Hy : forall i y, nth_error ys i = Some y -> y == 100 + 90 * (Q_of_nat i + (3 # 4))).
  { intros i y Hi. rewrite (H2 i y Hi). simpl Nat.add. unfold base_line_height. ring. }
  exists ys. split; [exact H1|]. split; [exact Hy|]. split.
  - intros i y Hi H11. rewrite (Hy i y Hi).
    assert (Hq : 11 <= Q_of_nat i).
    { unfold Q_of_nat. change 11 with (inject_Z 11). rewrite <- Zle_Qle. lia. }
    apply Qlt_le_trans with (100 + 90 * (11 + (3 # 4))); [reflexivity|].
    apply Qplus_le_r. apply Qmult_le_l; [reflexivity|]. apply Qplus_le_l. exact Hq.
  - exact H3.
Qed.

(** ** [list_styles] *)

Lemma insert_sorted_in (z x : Z) (l : list Z) :
  In x (insert_sorted z l) <-> z = x \/ In x l.
Proof.
  induction l as [|y rest IH]; simpl; [tauto|].
  destruct (z <? y)%Z eqn:E1; simpl; [tauto|].
  destruct (z =? y)%Z eqn:E2; simpl.
  - apply Z.eqb_eq in E2. subst. tauto.
  - rewrite IH. tauto.
Qed.

Lemma insert_sorted_hd (x z : Z) (l : list Z) :
  HdRel Z.lt x l -> (x < z)%Z -> HdRel Z.lt x (insert_sorted z l).
Proof.
  intros H Hxz. destruct l as [|y rest]; simpl; [constructor; exact Hxz|].
  destruct (z <? y)%Z; [constructor; exact Hxz|].
  destruct (z =? y)%Z; [exact H|]. inversion H. constructor. assumption.
Qed.

Lemma insert_sorted_sorted (z : Z) (l : list Z) :
  Sorted Z.lt l -> Sorted Z.lt (insert_sorted z l).
Proof.
  induction l as [|y rest IH]; intros H; simpl; [repeat constructor|].
  destruct (z <? y)%Z eqn:E1.
  - apply Z.ltb_lt in E1. constructor; [exact H|constructor; exact E1].
  - destruct (z =? y)%Z eqn:E2; [exact H|].
    apply Z.ltb_ge in E1. apply Z.eqb_neq in E2.
    apply Sorted_inv in H as [Hr Hhd]. constructor; [exact (IH Hr)|].
    apply insert_sorted_hd; [exact Hhd|lia].
Qed.

Lemma sorted_set_spec (ids : list Z) :
  Sorted Z.lt (sorted_set ids) /\ forall z, In z (sorted_set ids) <-> In z ids.
Proof.
  induction ids as [|i rest [IH1 IH2]]; simpl; [split; [constructor|tauto]|].
  split; [apply insert_sorted_sorted; exact IH1|].
  intros z. rewrite insert_sorted_in, IH2. split; intros [H|H]; auto.
Qed.

Lemma collect_style_ids_spec (py_int : pystr -> option Z) (files : list pystr) :
  (collect_style_ids py_int files = None <->
     exists f, In f files /\ is_style_file f = true /\ style_id_of py_int f = None)
  /\ (forall ids, collect_style_ids py_int files = Some ids ->
        forall z, In z ids <->
          exists f, In f files /\ is_style_file f = true /\ style_id_of py_int f = Some z).
Proof.
  induction files as [|f rest [IH1 IH2]]; simpl.
  - split; [split; [discriminate|intros (f & [] & _)]|].
    intros ids [= <-] z. split; [intros []|intros (f & [] & _)].
  - destruct (is_style_file f) eqn:Hf.
    + destruct (style_id_of py_int f) as [z0|] eqn:Hz;
        [destruct (collect_style_ids py_int rest) as [ids0|] eqn:Hc|].
      * split.
        -- split; [discriminate|]. intros (g & [<-|Hg] & Hg1 & Hg2); [congruence|].
           assert (Hn : Some ids0 = None) by (apply IH1; exists g; auto).
           discriminate Hn.
        -- intros ids [= <-] z. simpl. rewrite (IH2 ids0 eq_refl z). split.
           ++ intros [<-|(g & Hg & Hg1 & Hg2)]; [exists f; auto|exists g; auto].
           ++ intros (g & [<-|Hg] & Hg1 & Hg2); [left; congruence|right; exists g; auto].
      * split; [|discriminate].
        split; [|reflexivity]. intros _. destruct (proj1 IH1 eq_refl) as (g & Hg & Hg1 & Hg2).
        exists g. auto.
      * split; [|discriminate]. split; [|reflexivity]. intros _. exists f. auto.
    + split.
      * rewrite IH1. split; intros (g & Hg & Hg1 & Hg2).
        -- exists g. auto.
        -- destruct Hg as [<-|Hg]; [congruence|]. exists g. auto.
      * intros ids Hc z. rewrite (IH2 ids Hc z). split; intros (g & Hg & Hg1 & Hg2).
        -- exists g. auto.
        -- destruct Hg as [<-|Hg]; [congruence|]. exists g. auto.
Qed.

(** [list_styles] fails (HTTP 500) exactly when some file of the directory
    passes the name filter but its id does not parse; otherwise the styles
    are strictly increasing (sorted, no duplicate) and are exactly the ids
    of the files that pass the filter: the directory's listing order and
    the chars/strokes pairs do not matter. *)
Theorem list_styles_result (py_int : pystr -> option Z) (style_files : list pystr) :
  (list_styles py_int style_files = None <->
     exists f, In f style_files /\ is_style_file f = true /\ style_id_of py_int f = None)
  /\ (forall ids, list_styles py_int style_files = Some ids ->
        Sorted Z.lt ids
        /\ forall z, In z ids <->
             exists f, In f style_files /\ is_style_file f = true
                       /\ style_id_of py_int f = Some z).
Proof.
  destruct (collect_style_ids_spec py_int style_files) as [H1 H2].
  unfold list_styles. split.
  - rewrite <- H1. destruct (collect_style_ids py_int style_files); simpl; split; congruence.
  - intros ids Hl. destruct (collect_style_ids py_int style_files) as [ids0|] eqn:Hc;
      [|discriminate].
    simpl in Hl. inversion Hl; subst ids. destruct (sorted_set_spec ids0) as [Hs Hin].
    split; [exact Hs|]. intros z. rewrite Hin. exact (H2 ids0 eq_refl z).
Qed.

Lemma split_sep_aux_app (p : ascii -> bool) (w s cur : pystr) :
  (forall c, In c w -> p c = false) ->
  split_sep_aux p (w ++ s) cur = split_sep_aux p s (cur ++ w).
Proof.
  revert cur. induction w as [|a w IH]; intros cur Hw; simpl.
  - rewrite app_nil_r. reflexivity.
  - rewrite (Hw a (or_introl eq_refl)). rewrite IH by (intros c Hc; apply Hw; right; exact Hc).
    rewrite <- app_assoc. reflexivity.
Qed.

Lemma skipn_length_app {A : Type} (l m : list A) : skipn (length l) (l ++ m) = m.
Proof. induction l as [|a l IH]; [reflexivity|exact IH]. Qed.

Lemma style_file_name (py_int : pystr -> option Z) (d suf : pystr) :
  (forall c, In c d -> is_dash c = false) ->
  (forall c, In c suf -> is_dash c = false) ->
  style_id_of py_int (list_ascii_of_string "style-" ++ d ++ "-"%char :: suf) = py_int d.
Proof.
  intros Hd Hs. unfold style_id_of, split_sep. simpl.
  rewrite split_sep_aux_app by exact Hd. simpl.
  rewrite <- (app_nil_r d), split_sep_aux_app by exact Hd. simpl. rewrite app_nil_r.
  reflexivity.
Qed.

Lemma ends_with_app (suf pre : pystr) : ends_with suf (pre ++ suf) = true.
Proof.
  unfold ends_with. rewrite length_app.
  replace (length pre + length suf - length suf)%nat with (length pre) by lia.
  rewrite skipn_length_app. destruct (list_eq_dec ascii_dec suf suf); [|congruence].
  rewrite andb_true_r. apply Nat.leb_le. lia.
Qed.

(** A file named ["style-<d>-chars.npy"] or ["style-<d>-strokes.npy"], with
    no dash in [d], passes the filter and has id [int(d)]. The file name
    ["style-chars.npy"] passes the filter too (its "style-" prefix and
    "-chars.npy" suffix share the dash) and its id is [int("chars.npy")]. *)
Theorem style_file_names (py_int : pystr -> option Z) :
  (forall d, (forall c, In c d -> is_dash c = false) ->
     let chars := list_ascii_of_string "style-" ++ d ++ list_ascii_of_string "-chars.npy" in
     let strokes := list_ascii_of_string "style-" ++ d ++ list_ascii_of_string "-strokes.npy" in
     is_style_file chars = true /\ style_id_of py_int chars = py_int d
     /\ is_style_file strokes = true /\ style_id_of py_int strokes = py_int d)
  /\ is_style_file (list_ascii_of_string "style-chars.npy") = true
  /\ style_id_of py_int (list_ascii_of_string "style-chars.npy")
     = py_int (list_ascii_of_string "chars.npy").
Proof.
  split; [|split; reflexivity].
  intros d Hd chars strokes.
  assert (Hpre : forall suf, starts_with (list_ascii_of_string "style-")
                              (list_ascii_of_string "style-" ++ suf) = true)
    by (intros suf; reflexivity).
  split; [|split; [|split]].
  - unfold is_style_file, chars. rewrite Hpre, app_assoc, ends_with_app. reflexivity.
  - apply style_file_name; [exact Hd|intros c Hc; simpl in Hc; intuition subst; reflexivity].
  - unfold is_style_file, strokes. rewrite Hpre, app_assoc, ends_with_app, orb_true_r.
    reflexivity.
  - apply style_file_name; [exact Hd|intros c Hc; simpl in Hc; intuition subst; reflexivity].
Qed.

(** ** The style preview of [get_style] *)

(** The preview hands [write_segments] one line with one segment: the first
    30 characters of the stripped sample, in the requested style, with the
    other defaults of [write]. That segment is never too long, so the
    preview fails validation only when the sample has an unsupported
    character among those 30. *)
Theorem preview_segments_valid (alphabet : list ascii) (style : Z) (chars_data : pystr) :
  preview_segments style chars_data
  = [[TextSegment_init (firstn 30 (strip chars_data)) style (1 # 2)
        (list_ascii_of_string "black") 2 1]]
  /\ (validate_segments alphabet (preview_segments style chars_data) = Ok tt
      <-> forallb (in_alphabet alphabet) (firstn 30 (strip chars_data)) = true).
Proof.
  assert (Hp : preview_segments style chars_data
               = [[TextSegment_init (firstn 30 (strip chars_data)) style (1 # 2)
                     (list_ascii_of_string "black") 2 1]]) by reflexivity.
  split; [exact Hp|]. rewrite Hp.
  assert (Hlen : (length (firstn 30 (strip chars_data)) <= 30)%nat)
    by (rewrite length_firstn; lia).
  generalize dependent (firstn 30 (strip chars_data)). intros txt _ Hlen.
  unfold validate_segments. rewrite validate_lines_ok. split.
  - intros H. specialize (H 0%nat 0%nat _ _ eq_refl eq_refl).
    unfold segment_valid in H. simpl in H. apply andb_true_iff in H as [_ H]. exact H.
  - intros H l s line seg Hl Hs. destruct l as [|[|l]]; simpl in Hl; try discriminate.
    inversion Hl; subst line. destruct s as [|[|s]]; simpl in Hs; try discriminate.
    inversion Hs; subst seg. unfold segment_valid. simpl. rewrite H, andb_true_r.
    apply Nat.leb_le. lia.
Qed.
